(** * arena-alloc: a shallow embedding of [jmalloc.c] and its properties

    The allocator keeps process-wide state: a registry of arenas obtained
    from the operating system, one global doubly linked chain of block
    headers that live inside those arenas, and two counters.  The embedding
    keeps that shape: headers are objects stored at their addresses in a
    finite map, links are addresses (0 is NULL), every [size_t] value is a
    [Z] reduced modulo 2^64, and every function of the C file is a
    computation in a state-and-failure monad over the allocator state.
    A computation has no result where C gives none: reading a header that
    was never stored, pointer arithmetic that leaves the address space,
    [memcpy] on overlapping ranges, or a loop that does not end. *)

From Stdlib Require Import ZArith Lia.
From stdpp Require Import gmap list.

Open Scope Z_scope.

(** ** Machine arithmetic *)

(** [size_t] and pointers are 64 bits wide (LP64). *)
Definition wrap (x : Z) : Z := x mod 2 ^ 64.

(** [#define ALIGNMENT 8UL] *)
Definition ALIGNMENT : Z := 8.

(** [#define ALIGN_UP(x, a) (((x) + ((a) - 1)) & ~((a) - 1))] *)
Definition ALIGN_UP (x a : Z) : Z :=
  Z.land (wrap (x + (a - 1))) (wrap (Z.lnot (a - 1))).

(** [#define ARENA_MIN_SIZE (1u << 20)]; it is converted to [size_t]
    wherever the code uses it. *)
Definition ARENA_MIN_SIZE : Z := Z.shiftl 1 20.

(** ** Data model *)

(** [block_header_t]; [blk_next] and [blk_prev] are addresses, 0 is NULL.
    The C field [free] is an [int] that only ever holds 0 or 1 and is only
    tested for truth. *)
Record block_header := BlockHeader {
  blk_size : Z;
  blk_free : bool;
  blk_next : Z;
  blk_prev : Z
}.

(** [arena_header_t] *)
Record arena_header := ArenaHeader {
  ar_size : Z;
  ar_next : Z;
  ar_prev : Z;
  ar_first_block : Z
}.

(** [sizeof(block_header_t)] and [sizeof(arena_header_t)] on LP64:
    8 + 4 (+4 padding) + 8 + 8 and 8 + 8 + 8 + 8. *)
Definition sizeof_block_header : Z := 32.
Definition sizeof_arena_header : Z := 32.

Definition header_size : Z := ALIGN_UP sizeof_block_header ALIGNMENT.
Definition arena_header_size : Z := ALIGN_UP sizeof_arena_header ALIGNMENT.

(** The allocator's globals together with the memory they point into.
    [blocks] and [arenas] hold the header objects by address; a header is
    never removed from memory, unlinking only changes links.  [data] holds
    the bytes a caller has put into payloads; an address is absent from it
    when the caller never wrote it or when header fields were stored over
    it since. *)
Record heap := Heap {
  arenas : gmap Z arena_header;
  blocks : gmap Z block_header;
  data : gmap Z Byte.byte;
  g_arenas : Z;
  g_head : Z;
  g_tail : Z;
  g_total_bytes : Z;
  g_free_bytes : Z
}.

Definition heap_init : heap :=
  Heap ∅ ∅ ∅ 0 0 0 0 0.

(** The Region Provider: what [sysconf(_SC_PAGESIZE)] answers and what
    [mmap] answers for a length (0 stands for [MAP_FAILED]). *)
Record provider := Provider {
  sysconf_pagesize : Z;
  mmap : Z → Z
}.

(** ** The monad: state passing with undefined behaviour / divergence *)

Definition M (A : Type) : Type := heap → option (A * heap).

Definition ret {A} (x : A) : M A := λ s, Some (x, s).

Definition bind {A B} (m : M A) (k : A → M B) : M B :=
  λ s, match m s with
       | Some (x, s') => k x s'
       | None => None
       end.

Definition undefined {A} : M A := λ _, None.

Notation "'do' x <- m ; k" := (bind m (λ x, k))
  (at level 10, x name, m at level 100, k at level 200).
Notation "m ;; k" := (bind m (λ _, k))
  (at level 100, k at level 200, right associativity).

Definition when (c : bool) (m : M unit) : M unit := if c then m else ret tt.

(** *** Memory primitives *)

Definition with_blocks (f : gmap Z block_header → gmap Z block_header) (s : heap) : heap :=
  Heap (arenas s) (f (blocks s)) (data s) (g_arenas s) (g_head s) (g_tail s)
       (g_total_bytes s) (g_free_bytes s).
Definition with_arenas (f : gmap Z arena_header → gmap Z arena_header) (s : heap) : heap :=
  Heap (f (arenas s)) (blocks s) (data s) (g_arenas s) (g_head s) (g_tail s)
       (g_total_bytes s) (g_free_bytes s).
Definition with_data (f : gmap Z Byte.byte → gmap Z Byte.byte) (s : heap) : heap :=
  Heap (arenas s) (blocks s) (f (data s)) (g_arenas s) (g_head s) (g_tail s)
       (g_total_bytes s) (g_free_bytes s).
Definition with_g_arenas (v : Z) (s : heap) : heap :=
  Heap (arenas s) (blocks s) (data s) v (g_head s) (g_tail s)
       (g_total_bytes s) (g_free_bytes s).
Definition with_g_head (v : Z) (s : heap) : heap :=
  Heap (arenas s) (blocks s) (data s) (g_arenas s) v (g_tail s)
       (g_total_bytes s) (g_free_bytes s).
Definition with_g_tail (v : Z) (s : heap) : heap :=
  Heap (arenas s) (blocks s) (data s) (g_arenas s) (g_head s) v
       (g_total_bytes s) (g_free_bytes s).
Definition with_g_total_bytes (v : Z) (s : heap) : heap :=
  Heap (arenas s) (blocks s) (data s) (g_arenas s) (g_head s) (g_tail s)
       v (g_free_bytes s).
Definition with_g_free_bytes (v : Z) (s : heap) : heap :=
  Heap (arenas s) (blocks s) (data s) (g_arenas s) (g_head s) (g_tail s)
       (g_total_bytes s) v.

(** Storing header fields at [a] overwrites the [n] bytes from [a] on. *)
Definition clobber (a n : Z) (d : gmap Z Byte.byte) : gmap Z Byte.byte :=
  foldr (λ i d', delete (a + i) d') d (seqZ 0 n).

(** Reading a header that was never stored is undefined. *)
Definition load (a : Z) : M block_header :=
  λ s, match blocks s !! a with
       | Some h => Some (h, s)
       | None => None
       end.

Definition store (a : Z) (h : block_header) : M unit :=
  λ s, Some (tt, with_data (clobber a header_size) (with_blocks <[a:=h]> s)).

Definition set_size (a v : Z) : M unit :=
  do h <- load a; store a (BlockHeader v (blk_free h) (blk_next h) (blk_prev h)).
Definition set_free (a : Z) (v : bool) : M unit :=
  do h <- load a; store a (BlockHeader (blk_size h) v (blk_next h) (blk_prev h)).
Definition set_next (a v : Z) : M unit :=
  do h <- load a; store a (BlockHeader (blk_size h) (blk_free h) v (blk_prev h)).
Definition set_prev (a v : Z) : M unit :=
  do h <- load a; store a (BlockHeader (blk_size h) (blk_free h) (blk_next h) v).

Definition load_arena (a : Z) : M arena_header :=
  λ s, match arenas s !! a with
       | Some h => Some (h, s)
       | None => None
       end.

Definition store_arena (a : Z) (h : arena_header) : M unit :=
  λ s, Some (tt, with_data (clobber a arena_header_size) (with_arenas <[a:=h]> s)).

(** Pointer arithmetic [(uint8_t* )a + n]; undefined outside the 64-bit
    address space. *)
Definition ptr_add (a n : Z) : M Z :=
  if (0 <=? a + n) && (a + n <? 2 ^ 64) then ret (a + n) else undefined.

Definition get {A} (f : heap → A) : M A := λ s, Some (f s, s).
Definition put (f : heap → heap) : M unit := λ s, Some (tt, f s).

(** ** Platform abstraction *)

(** The POSIX branch of the platform layer; the Windows branch differs only
    in the system calls. *)

(** [os_pagesize]: [if (ps <= 0) ps = 4096u;] *)
Definition os_pagesize (p : provider) : Z :=
  if sysconf_pagesize p <=? 0 then 4096 else wrap (sysconf_pagesize p).

(** The length [os_alloc] hands to [mmap]:
    [need = (n + ps - 1) & ~(ps - 1)]. *)
Definition os_need (p : provider) (n : Z) : Z :=
  Z.land (wrap (n + os_pagesize p - 1)) (wrap (Z.lnot (os_pagesize p - 1))).

(** [os_alloc]: the region's address, or 0 (NULL) when [mmap] fails. *)
Definition os_alloc (p : provider) (n : Z) : Z := mmap p (os_need p n).

(** ** Allocator core *)

(** [split_block(blk, req_size)] *)
Definition split_block (blk req_size : Z) : M unit :=
  do h <- load blk;
  let remain := wrap (blk_size h - req_size) in
  set_size blk req_size;;
  do n <- ptr_add blk (header_size + req_size);
  do h' <- load blk;
  store n (BlockHeader (wrap (remain - header_size)) true (blk_next h') blk);;
  do hn <- load n;
  (if blk_next hn =? 0 then put (with_g_tail n) else set_prev (blk_next hn) n);;
  set_next blk n;;
  do hn' <- load n;
  do fb <- get g_free_bytes;
  put (with_g_free_bytes (wrap (fb + blk_size hn'))).

(** [coalesce(blk)], returning the surviving block. *)
Definition coalesce (blk : Z) : M Z :=
  do h <- load blk;
  do nfree <- (if blk_next h =? 0 then ret false
               else do hn <- load (blk_next h); ret (blk_free hn));
  when nfree (
    let n := blk_next h in
    do hn <- load n;
    set_size blk (wrap (blk_size h + header_size + blk_size hn));;
    do hn' <- load n;
    set_next blk (blk_next hn');;
    do h' <- load blk;
    (if blk_next h' =? 0 then put (with_g_tail blk) else set_prev (blk_next h') blk);;
    do fb <- get g_free_bytes;
    put (with_g_free_bytes (wrap (fb + header_size))));;
  do h1 <- load blk;
  do pfree <- (if blk_prev h1 =? 0 then ret false
               else do hp <- load (blk_prev h1); ret (blk_free hp));
  if pfree then
    let p := blk_prev h1 in
    do hp <- load p;
    do hb <- load blk;
    set_size p (wrap (blk_size hp + header_size + blk_size hb));;
    do hb' <- load blk;
    set_next p (blk_next hb');;
    do hp' <- load p;
    (if blk_next hp' =? 0 then put (with_g_tail p) else set_prev (blk_next hp') p);;
    do fb <- get g_free_bytes;
    put (with_g_free_bytes (wrap (fb + header_size)));;
    ret p
  else ret blk.

(** The loop of [find_first_fit], started at [cur]; [fuel] bounds the
    number of iterations, [None] when it does not suffice. *)
Fixpoint first_fit_from (fuel : nat) (bs : gmap Z block_header) (cur size : Z) : option Z :=
  if cur =? 0 then Some 0
  else match fuel with
       | O => None
       | S fuel' =>
           match bs !! cur with
           | None => None
           | Some h =>
               if blk_free h && (size <=? blk_size h) then Some cur
               else first_fit_from fuel' bs (blk_next h) size
           end
       end.

Definition find_first_fit (fuel : nat) (size : Z) : M Z :=
  λ s, match first_fit_from fuel (blocks s) (g_head s) size with
       | Some r => Some (r, s)
       | None => None
       end.

(** [request_space(size)] *)
Definition request_space (p : provider) (size : Z) : M Z :=
  let need := wrap (header_size + size) in
  let arena_total :=
    wrap (arena_header_size + (if ARENA_MIN_SIZE <? need then need else ARENA_MIN_SIZE)) in
  let mem := os_alloc p arena_total in
  if mem =? 0 then ret 0
  else
    let a := mem in
    do ga <- get g_arenas;
    store_arena a (ArenaHeader arena_total ga 0 0);;
    (if ga =? 0 then ret tt
     else do hga <- load_arena ga;
          store_arena ga (ArenaHeader (ar_size hga) (ar_next hga) a (ar_first_block hga)));;
    put (with_g_arenas a);;
    do blk <- ptr_add mem arena_header_size;
    do gt <- get g_tail;
    store blk (BlockHeader size false 0 gt);;
    do gh <- get g_head;
    when (gh =? 0) (put (with_g_head blk));;
    do gt' <- get g_tail;
    when (negb (gt' =? 0)) (set_next gt' blk);;
    put (with_g_tail blk);;
    do ha <- load_arena a;
    store_arena a (ArenaHeader (ar_size ha) (ar_next ha) (ar_prev ha) blk);;
    do tb <- get g_total_bytes;
    put (with_g_total_bytes (wrap (tb + arena_total)));;
    let used := wrap (arena_header_size + header_size + size) in
    when (wrap (used + header_size + ALIGNMENT) <=? arena_total) (
      do f <- ptr_add blk (header_size + size);
      do hb <- load blk;
      store f (BlockHeader (wrap (wrap (arena_total - used) - header_size)) true (blk_next hb) blk);;
      do hf <- load f;
      (if blk_next hf =? 0 then put (with_g_tail f) else set_prev (blk_next hf) f);;
      set_next blk f;;
      do hf' <- load f;
      do fb <- get g_free_bytes;
      put (with_g_free_bytes (wrap (fb + blk_size hf'))));;
    ret blk.

(** ** Public API *)

(** [j_malloc(size)]; the result is the payload address, 0 for NULL. *)
Definition j_malloc (fuel : nat) (p : provider) (size : Z) : M Z :=
  if size =? 0 then ret 0
  else
    let size := ALIGN_UP size ALIGNMENT in
    do blk <- find_first_fit fuel size;
    if blk =? 0 then
      do blk <- request_space p size;
      if blk =? 0 then ret 0
      else ptr_add blk header_size
    else
      do h <- load blk;
      let old_size := blk_size h in
      when (wrap (size + header_size + ALIGNMENT) <=? old_size) (split_block blk size);;
      set_free blk false;;
      do fb <- get g_free_bytes;
      put (with_g_free_bytes (wrap (fb - old_size)));;
      ptr_add blk header_size.

(** [j_free(ptr)] *)
Definition j_free (ptr : Z) : M unit :=
  if ptr =? 0 then ret tt
  else
    do blk <- ptr_add ptr (- header_size);
    do h <- load blk;
    if blk_free h then ret tt
    else
      set_free blk true;;
      do h' <- load blk;
      do fb <- get g_free_bytes;
      put (with_g_free_bytes (wrap (fb + blk_size h')));;
      do _ <- coalesce blk;
      ret tt.

(** [memcpy(dst, src, n)] on the payload bytes; overlapping ranges are
    undefined. *)
Definition memcpy (dst src n : Z) : M unit :=
  if (0 <? n) && (dst <? src + n) && (src <? dst + n) then undefined
  else put (with_data (λ d,
         foldr (λ i d', partial_alter (λ _, d !! (src + i)) (dst + i) d')
               d (seqZ 0 n))).

(** [j_realloc(ptr, new_size)] *)
Definition j_realloc (fuel : nat) (p : provider) (ptr new_size : Z) : M Z :=
  if ptr =? 0 then j_malloc fuel p new_size
  else if new_size =? 0 then j_free ptr;; ret 0
  else
    let new_size := ALIGN_UP new_size ALIGNMENT in
    do blk <- ptr_add ptr (- header_size);
    do h <- load blk;
    let old_size := blk_size h in
    if new_size <=? old_size then
      when (wrap (new_size + header_size + ALIGNMENT) <=? old_size) (split_block blk new_size);;
      ret ptr
    else
      do mergeable <-
        (if blk_next h =? 0 then ret false
         else do hn <- load (blk_next h);
              ret (blk_free hn && (new_size <=? wrap (old_size + header_size + blk_size hn))));
      if mergeable then
        let n := blk_next h in
        do hn <- load n;
        set_size blk (wrap (blk_size h + header_size + blk_size hn));;
        do hn' <- load n;
        set_next blk (blk_next hn');;
        do h' <- load blk;
        (if blk_next h' =? 0 then put (with_g_tail blk) else set_prev (blk_next h') blk);;
        do hn'' <- load n;
        do fb <- get g_free_bytes;
        put (with_g_free_bytes (wrap (fb - blk_size hn'')));;
        do h'' <- load blk;
        when (wrap (new_size + header_size + ALIGNMENT) <=? blk_size h'') (split_block blk new_size);;
        ptr_add blk header_size
      else
        do new_ptr <- j_malloc fuel p new_size;
        if new_ptr =? 0 then ret 0
        else
          let keep := if old_size <? new_size then old_size else new_size in
          memcpy new_ptr ptr keep;;
          j_free ptr;;
          ret new_ptr.

(** [j_heap_bytes()] *)
Definition j_heap_bytes : M Z := get g_total_bytes.

(** The loop of [j_free_bytes], started at [cur] with running [sum]. *)
Fixpoint free_bytes_from (fuel : nat) (bs : gmap Z block_header) (cur sum : Z) : option Z :=
  if cur =? 0 then Some sum
  else match fuel with
       | O => None
       | S fuel' =>
           match bs !! cur with
           | None => None
           | Some h =>
               free_bytes_from fuel' bs (blk_next h)
                 (if blk_free h then wrap (sum + blk_size h) else sum)
           end
       end.

(** [j_free_bytes()] *)
Definition j_free_bytes (fuel : nat) : M Z :=
  λ s, match free_bytes_from fuel (blocks s) (g_head s) 0 with
       | Some r => Some (r, s)
       | None => None
       end.

(** * Properties *)

(** ** Arithmetic of [wrap] and [ALIGN_UP] *)

Lemma wrap_range x : 0 ≤ wrap x < 2 ^ 64.
Proof. unfold wrap. apply Z.mod_pos_bound. lia. Qed.

Lemma wrap_small x : 0 ≤ x < 2 ^ 64 → wrap x = x.
Proof. intros. unfold wrap. apply Z.mod_small. lia. Qed.


Lemma wrap_mod8 x : wrap x mod 8 = x mod 8.
Proof.
  unfold wrap.
  replace (2 ^ 64) with (8 * 2 ^ 61) by reflexivity.
  rewrite Z.rem_mul_r by lia.
  rewrite (Z.mul_comm 8), Z.mod_add by lia.
  apply Z.mod_mod. lia.
Qed.

(** Masking with [~(2^k - 1)] rounds down to a multiple of [2^k]. *)
Lemma land_mask_pow2 k y :
  0 ≤ k < 64 → 0 ≤ y < 2 ^ 64 →
  Z.land y (wrap (Z.lnot (2 ^ k - 1))) = 2 ^ k * (y / 2 ^ k).
Proof.
  intros Hk Hy.
  assert (Hm : wrap (Z.lnot (2 ^ k - 1)) = Z.land (Z.lnot (Z.ones k)) (Z.ones 64)).
  { unfold wrap. rewrite Z.land_ones by lia. rewrite Z.ones_equiv, Z.sub_1_r. reflexivity. }
  rewrite Hm, Z.land_assoc.
  rewrite <- Z.ldiff_land. rewrite Z.ldiff_ones_r by lia.
  rewrite Z.land_ones by lia.
  rewrite Z.shiftr_div_pow2, Z.shiftl_mul_pow2 by lia.
  assert (0 < 2 ^ k) by (apply Z.pow_pos_nonneg; lia).
  assert (y / 2 ^ k * 2 ^ k ≤ y) by (rewrite Z.mul_comm; apply Z.mul_div_le; lia).
  assert (0 ≤ y / 2 ^ k) by (apply Z.div_pos; lia).
  rewrite Z.mod_small by nia. lia.
Qed.

Lemma ALIGN_UP_8 x : ALIGN_UP x ALIGNMENT = 8 * (wrap (x + 7) / 8).
Proof.
  unfold ALIGN_UP, ALIGNMENT. replace (8 - 1) with (2 ^ 3 - 1) by reflexivity.
  rewrite land_mask_pow2; [reflexivity | lia | apply wrap_range].
Qed.

Lemma ALIGN_UP_8_range x : 0 ≤ ALIGN_UP x ALIGNMENT < 2 ^ 64.
Proof.
  rewrite ALIGN_UP_8. pose proof (wrap_range (x + 7)).
  assert (8 * (wrap (x + 7) / 8) ≤ wrap (x + 7)) by (apply Z.mul_div_le; lia).
  assert (0 ≤ wrap (x + 7) / 8) by (apply Z.div_pos; lia).
  lia.
Qed.

Lemma ALIGN_UP_8_mod x : ALIGN_UP x ALIGNMENT mod 8 = 0.
Proof. rewrite ALIGN_UP_8, Z.mul_comm. apply Z.mod_mul. lia. Qed.

(** Without overflow [ALIGN_UP] is the least multiple of 8 above [x]. *)
Lemma ALIGN_UP_8_ge x : 0 ≤ x → x + 7 < 2 ^ 64 → x ≤ ALIGN_UP x ALIGNMENT < x + 8.
Proof.
  intros. rewrite ALIGN_UP_8, wrap_small by lia.
  pose proof (Z.div_mod (x + 7) 8). pose proof (Z.mod_pos_bound (x + 7) 8). lia.
Qed.

Lemma ALIGN_UP_8_fix x : 0 ≤ x < 2 ^ 64 → x mod 8 = 0 → ALIGN_UP x ALIGNMENT = x.
Proof.
  intros Hx Hm. rewrite ALIGN_UP_8.
  pose proof (Z.div_mod x 8). 
  assert (x + 7 < 2 ^ 64).
  { assert (x / 8 < 2 ^ 61) by (apply Z.div_lt_upper_bound; lia). lia. }
  rewrite wrap_small by lia.
  pose proof (Z.div_mod (x + 7) 8). pose proof (Z.mod_pos_bound (x + 7) 8). lia.
Qed.

Lemma header_size_eq : header_size = 32.
Proof. reflexivity. Qed.

Lemma arena_header_size_eq : arena_header_size = 32.
Proof. reflexivity. Qed.

Lemma ARENA_MIN_SIZE_eq : ARENA_MIN_SIZE = 1048576.
Proof. reflexivity. Qed.

(** ** Reasoning about computations *)

(** [wp m Q s]: if [m] is defined on [s], its result and final state
    satisfy [Q]. *)
Definition wp {A} (m : M A) (Q : A → heap → Prop) (s : heap) : Prop :=
  match m s with
  | Some (x, s') => Q x s'
  | None => True
  end.

Lemma wp_elim {A} (m : M A) Q s x s' : wp m Q s → m s = Some (x, s') → Q x s'.
Proof. unfold wp. intros H E. rewrite E in H. exact H. Qed.

Lemma wp_intro {A} (m : M A) (Q : A → heap → Prop) s :
  (∀ x s', m s = Some (x, s') → Q x s') → wp m Q s.
Proof. unfold wp. intros H. destruct (m s) as [[x s']|]; auto. Qed.

Lemma wp_mono {A} (m : M A) (Q Q' : A → heap → Prop) s :
  (∀ x s', Q x s' → Q' x s') → wp m Q s → wp m Q' s.
Proof. unfold wp. intros H. destruct (m s) as [[x s']|]; auto. Qed.

Lemma wp_bind {A B} (m : M A) (k : A → M B) Q s :
  wp m (λ x s', wp (k x) Q s') s → wp (bind m k) Q s.
Proof. unfold wp, bind. destruct (m s) as [[x s']|]; auto. Qed.

Lemma wp_ret {A} (x : A) (Q : A → heap → Prop) s : Q x s → wp (ret x) Q s.
Proof. auto. Qed.

Lemma wp_get {A} (f : heap → A) (Q : A → heap → Prop) s : Q (f s) s → wp (get f) Q s.
Proof. auto. Qed.

Lemma wp_put f (Q : unit → heap → Prop) s : Q tt (f s) → wp (put f) Q s.
Proof. auto. Qed.

Lemma wp_undefined {A} (Q : A → heap → Prop) s : wp undefined Q s.
Proof. exact I. Qed.

Lemma wp_ptr_add a n (Q : Z → heap → Prop) s :
  (0 ≤ a + n < 2 ^ 64 → Q (a + n) s) → wp (ptr_add a n) Q s.
Proof.
  intros H. unfold ptr_add.
  destruct (0 <=? a + n) eqn:E1; [destruct (a + n <? 2 ^ 64) eqn:E2|]; simpl; try exact I.
  apply wp_ret, H. lia.
Qed.

Lemma wp_load a (Q : block_header → heap → Prop) s :
  (∀ h, blocks s !! a = Some h → Q h s) → wp (load a) Q s.
Proof. unfold wp, load. destruct (blocks s !! a); auto. Qed.

Lemma wp_store a h (Q : unit → heap → Prop) s :
  Q tt (with_data (clobber a header_size) (with_blocks <[a:=h]> s)) → wp (store a h) Q s.
Proof. auto. Qed.

Lemma wp_load_arena a (Q : arena_header → heap → Prop) s :
  (∀ h, arenas s !! a = Some h → Q h s) → wp (load_arena a) Q s.
Proof. unfold wp, load_arena. destruct (arenas s !! a); auto. Qed.

Lemma wp_store_arena a h (Q : unit → heap → Prop) s :
  Q tt (with_data (clobber a arena_header_size) (with_arenas <[a:=h]> s)) →
  wp (store_arena a h) Q s.
Proof. auto. Qed.

Lemma wp_when c m (Q : unit → heap → Prop) s :
  (c = true → wp m Q s) → (c = false → Q tt s) → wp (when c m) Q s.
Proof. intros H1 H2. destruct c; [apply H1 | apply wp_ret, H2]; reflexivity. Qed.

(** One symbolic step through the outermost construct of a computation. *)
Ltac wp_step :=
  lazymatch goal with
  | |- wp (bind _ _) _ _ => apply wp_bind
  | |- wp (ret _) _ _ => apply wp_ret
  | |- wp (get _) _ _ => apply wp_get
  | |- wp (put _) _ _ => apply wp_put
  | |- wp undefined _ _ => apply wp_undefined
  | |- wp (ptr_add _ _) _ _ => apply wp_ptr_add; intros ?
  | |- wp (load _) _ _ => apply wp_load; intros ? ?
  | |- wp (store _ _) _ _ => apply wp_store
  | |- wp (load_arena _) _ _ => apply wp_load_arena; intros ? ?
  | |- wp (store_arena _ _) _ _ => apply wp_store_arena
  | |- wp (set_size _ _) _ _ => unfold set_size
  | |- wp (set_free _ _) _ _ => unfold set_free
  | |- wp (set_next _ _) _ _ => unfold set_next
  | |- wp (set_prev _ _) _ _ => unfold set_prev
  | |- wp (when _ _) _ _ => apply wp_when; intros ?
  | |- wp (if ?c then _ else _) _ _ => destruct c eqn:?
  end.

(** Inversion of a defined [bind]. *)
Lemma bind_Some {A B} (m : M A) (k : A → M B) s y s' :
  bind m k s = Some (y, s') ↔ ∃ x s1, m s = Some (x, s1) ∧ k x s1 = Some (y, s').
Proof.
  unfold bind. destruct (m s) as [[x s1]|]; split.
  - eauto.
  - intros (x' & s1' & E & Hk). by simplify_eq.
  - done.
  - intros (x' & s1' & E & Hk). done.
Qed.

Lemma load_Some a s h s' : load a s = Some (h, s') ↔ blocks s !! a = Some h ∧ s' = s.
Proof.
  unfold load. destruct (blocks s !! a); split; try done.
  - by intros [= -> ->].
  - by intros [[= ->] ->].
  - by intros [? _].
Qed.

Lemma ptr_add_Some a n s r s' :
  ptr_add a n s = Some (r, s') ↔ 0 ≤ a + n < 2 ^ 64 ∧ r = a + n ∧ s' = s.
Proof.
  unfold ptr_add.
  destruct (0 <=? a + n) eqn:E1; [destruct (a + n <? 2 ^ 64) eqn:E2|]; simpl;
    unfold ret, undefined; split.
  - intros [= <- <-]. split; [lia | done].
  - by intros (_ & -> & ->).
  - done.
  - lia.
  - done.
  - lia.
Qed.

(** ** Well-formed allocator states *)

(** A link is NULL or the address of a stored header. *)
Definition link_ok (bs : gmap Z block_header) (x : Z) : Prop :=
  x = 0 ∨ is_Some (bs !! x).

(** What every stored block header satisfies: it sits at a non-null,
    8-aligned 64-bit address, its payload size is a [size_t] multiple of 8,
    and its links are NULL or lead to stored headers. *)
Record hdr_ok (bs : gmap Z block_header) (a : Z) (h : block_header) : Prop := HdrOk {
  hdr_addr : 0 < a < 2 ^ 64;
  hdr_addr_al : a mod 8 = 0;
  hdr_size : 0 ≤ blk_size h < 2 ^ 64;
  hdr_size_al : blk_size h mod 8 = 0;
  hdr_next : link_ok bs (blk_next h);
  hdr_prev : link_ok bs (blk_prev h)
}.

Definition wf_blocks (bs : gmap Z block_header) : Prop :=
  ∀ a h, bs !! a = Some h → hdr_ok bs a h.

Record wf (s : heap) : Prop := Wf {
  wf_hdrs : wf_blocks (blocks s);
  wf_head : link_ok (blocks s) (g_head s);
  wf_tail : link_ok (blocks s) (g_tail s);
  wf_arenas : g_arenas s = 0 ∨ is_Some (arenas s !! g_arenas s);
  wf_total : 0 ≤ g_total_bytes s < 2 ^ 64;
  wf_free : 0 ≤ g_free_bytes s < 2 ^ 64
}.

Lemma link_ok_insert bs a h x : link_ok bs x → link_ok (<[a:=h]> bs) x.
Proof.
  intros [->|Hx]; [by left | right].
  rewrite lookup_insert. case_decide; eauto.
Qed.

Lemma link_ok_insert_eq bs a h : link_ok (<[a:=h]> bs) a.
Proof. right. rewrite lookup_insert_eq. eauto. Qed.

Lemma link_ok_null bs : link_ok bs 0.
Proof. by left. Qed.

Lemma link_ok_lookup bs a h : bs !! a = Some h → link_ok bs a.
Proof. right. eauto. Qed.

Lemma hdr_ok_insert bs a h a' h' : hdr_ok bs a h → hdr_ok (<[a':=h']> bs) a h.
Proof. intros []. constructor; auto using link_ok_insert. Qed.

Lemma wf_blocks_insert bs a h :
  wf_blocks bs → hdr_ok (<[a:=h]> bs) a h → wf_blocks (<[a:=h]> bs).
Proof.
  intros Hwf Hok a' h'. rewrite lookup_insert. case_decide.
  - intros [= <-]. by subst.
  - intros Hl. apply hdr_ok_insert. by apply Hwf.
Qed.

Lemma wf_heap_init : wf heap_init.
Proof.
  constructor; simpl; try (by left); try lia.
  intros a h. by rewrite lookup_empty.
Qed.

(** State-level forms, for symbolic execution. *)
Lemma wf_store s a h :
  wf s → hdr_ok (<[a:=h]> (blocks s)) a h →
  wf (with_data (clobber a header_size) (with_blocks <[a:=h]> s)).
Proof.
  intros [] Hok. constructor; simpl; auto using wf_blocks_insert, link_ok_insert.
Qed.

Lemma wf_with_g_tail s v : wf s → link_ok (blocks s) v → wf (with_g_tail v s).
Proof. intros [] Hv. constructor; simpl; auto. Qed.

Lemma wf_with_g_head s v : wf s → link_ok (blocks s) v → wf (with_g_head v s).
Proof. intros [] Hv. constructor; simpl; auto. Qed.

Lemma wf_with_g_free_bytes s v : wf s → wf (with_g_free_bytes (wrap v) s).
Proof. intros []. constructor; simpl; auto using wrap_range. Qed.

Lemma wf_with_g_total_bytes s v : wf s → wf (with_g_total_bytes (wrap v) s).
Proof. intros []. constructor; simpl; auto using wrap_range. Qed.

Lemma wf_store_arena s a h :
  wf s → wf (with_data (clobber a arena_header_size) (with_arenas <[a:=h]> s)).
Proof.
  intros []. constructor; simpl; auto.
  destruct wf_arenas0 as [?|?]; [by left | right].
  rewrite lookup_insert. case_decide; eauto.
Qed.

Lemma wf_with_g_arenas s a :
  wf s → is_Some (arenas s !! a) → wf (with_g_arenas a s).
Proof. intros [] Ha. constructor; simpl; auto. Qed.

Lemma wf_load s a h : wf s → blocks s !! a = Some h → hdr_ok (blocks s) a h.
Proof. intros [] Hl. by apply wf_hdrs0. Qed.

(** *** Symbolic execution that maintains [wf] *)

Ltac hsimpl :=
  cbn [arenas blocks data g_arenas g_head g_tail g_total_bytes g_free_bytes
       with_blocks with_arenas with_data with_g_arenas with_g_head with_g_tail
       with_g_total_bytes with_g_free_bytes
       blk_size blk_free blk_next blk_prev] in *.

Lemma al8_wrap x : x mod 8 = 0 → wrap x mod 8 = 0.
Proof. by rewrite wrap_mod8. Qed.

Lemma al8_add x y : x mod 8 = 0 → y mod 8 = 0 → (x + y) mod 8 = 0.
Proof. intros Hx Hy. rewrite Z.add_mod by lia. by rewrite Hx, Hy. Qed.

Lemma al8_sub x y : x mod 8 = 0 → y mod 8 = 0 → (x - y) mod 8 = 0.
Proof. intros Hx Hy. rewrite Zminus_mod. by rewrite Hx, Hy. Qed.

Lemma al8_opp x : x mod 8 = 0 → (- x) mod 8 = 0.
Proof. intros Hx. change (- x) with (0 - x). by apply al8_sub. Qed.

Lemma al8_if (b : bool) x y :
  x mod 8 = 0 → y mod 8 = 0 → (if b then x else y) mod 8 = 0.
Proof. by destruct b. Qed.

Lemma al8_hs : header_size mod 8 = 0.
Proof. reflexivity. Qed.

Lemma al8_ahs : arena_header_size mod 8 = 0.
Proof. reflexivity. Qed.

Create HintDb al8.
#[local] Hint Resolve al8_wrap al8_add al8_sub al8_opp al8_if al8_hs al8_ahs
  ALIGN_UP_8_mod : al8.
#[local] Hint Extern 1 (_ mod 8 = 0) => reflexivity : al8.

Create HintDb links.
#[local] Hint Resolve link_ok_insert link_ok_insert_eq link_ok_null link_ok_lookup
  wf_tail wf_head : links.

(** After a header store the new state is well formed, every known link
    is still a link, and the globals are the old ones. *)
Lemma wp_store_wf a h (Q : unit → heap → Prop) s :
  wf s → hdr_ok (<[a:=h]> (blocks s)) a h →
  (∀ s1, wf s1 → link_ok (blocks s1) a →
         (∀ x, link_ok (blocks s) x → link_ok (blocks s1) x) →
         g_head s1 = g_head s → g_tail s1 = g_tail s → Q tt s1) →
  wp (store a h) Q s.
Proof.
  intros Hwf Hok HQ. apply wp_store. apply HQ; try done.
  - by apply wf_store.
  - simpl. auto with links.
  - simpl. auto with links.
Qed.

Ltac transport Hext :=
  repeat match goal with
         | H : link_ok (blocks ?s) _ |- _ =>
             lazymatch type of Hext with
             | ∀ x, link_ok (blocks s) x → _ => apply Hext in H
             end
         end.

Ltac solve_side :=
  hsimpl; rewrite ?header_size_eq, ?arena_header_size_eq in *;
  first [ lia
        | solve [eauto 6 with links]
        | solve [auto 16 with al8]
        | apply wrap_range
        | apply ALIGN_UP_8_range ].

Ltac wf_step :=
  hsimpl;
  lazymatch goal with
  | |- wp (bind _ _) _ _ => apply wp_bind
  | |- wp (ret _) _ _ => apply wp_ret
  | |- wp (get _) _ _ => apply wp_get
  | |- wp (ptr_add _ _) _ _ => apply wp_ptr_add; intros ?
  | Hwf : wf ?s |- wp (load ?a) _ ?s =>
      let h := fresh "h" in let Hh := fresh "Hh" in
      apply wp_load; intros h Hh;
      pose proof (link_ok_lookup _ _ _ Hh);
      destruct (wf_load _ _ _ Hwf Hh)
  | Hwf : wf ?s |- wp (store ?a ?h) _ ?s =>
      let s1 := fresh "s" in let Hwf1 := fresh "Hwf" in let Hext := fresh "Hext" in
      apply (wp_store_wf a h _ s Hwf);
      [ constructor; solve_side
      | intros s1 Hwf1 ? Hext ? ?; hsimpl; transport Hext; clear Hext ]
  | |- wp (set_size _ _) _ _ => unfold set_size
  | |- wp (set_free _ _) _ _ => unfold set_free
  | |- wp (set_next _ _) _ _ => unfold set_next
  | |- wp (set_prev _ _) _ _ => unfold set_prev
  | Hwf : wf ?s |- wp (put (with_g_tail ?v)) _ ?s =>
      apply wp_put;
      assert (wf (with_g_tail v s)) by (apply wf_with_g_tail; [exact Hwf | solve_side])
  | Hwf : wf ?s |- wp (put (with_g_head ?v)) _ ?s =>
      apply wp_put;
      assert (wf (with_g_head v s)) by (apply wf_with_g_head; [exact Hwf | solve_side])
  | Hwf : wf ?s |- wp (put (with_g_free_bytes ?v)) _ ?s =>
      apply wp_put;
      assert (wf (with_g_free_bytes v s)) by (apply wf_with_g_free_bytes; exact Hwf)
  | Hwf : wf ?s |- wp (put (with_g_total_bytes ?v)) _ ?s =>
      apply wp_put;
      assert (wf (with_g_total_bytes v s)) by (apply wf_with_g_total_bytes; exact Hwf)
  | |- wp (when _ _) _ _ => apply wp_when; intros ?
  | |- wp (if ?c then _ else _) _ _ => destruct c eqn:?
  end.

Lemma split_block_wf blk req s :
  wf s → 0 ≤ req < 2 ^ 64 → req mod 8 = 0 →
  wp (split_block blk req) (λ _ s', wf s') s.
Proof.
  intros Hwf Hr Hm. unfold split_block.
  repeat wf_step; assumption.
Qed.

Lemma coalesce_wf blk s :
  wf s → wp (coalesce blk) (λ _ s', wf s') s.
Proof.
  intros Hwf. unfold coalesce.
  repeat wf_step; assumption.
Qed.

Lemma first_fit_from_link fuel bs cur size r :
  first_fit_from fuel bs cur size = Some r → link_ok bs r.
Proof.
  revert cur. induction fuel as [|fuel IH]; intros cur; simpl.
  - destruct (cur =? 0); [intros [= <-]; by left | done].
  - destruct (cur =? 0); [intros [= <-]; by left |].
    destruct (bs !! cur) as [h|] eqn:E; [|done].
    destruct (blk_free h && (size <=? blk_size h)).
    + intros [= <-]. right. eauto.
    + apply IH.
Qed.

Lemma wp_find_first_fit fuel size (Q : Z → heap → Prop) s :
  (∀ r, first_fit_from fuel (blocks s) (g_head s) size = Some r →
        link_ok (blocks s) r → Q r s) →
  wp (find_first_fit fuel size) Q s.
Proof.
  intros H. unfold wp, find_first_fit.
  destruct (first_fit_from _ _ _ _) as [r|] eqn:E; [|done].
  apply H; [done|]. by eapply first_fit_from_link.
Qed.

Lemma wf_with_data s f : wf s → wf (with_data f s).
Proof. intros []. by constructor. Qed.

Lemma wp_memcpy dst src n (Q : unit → heap → Prop) s :
  (¬ (0 < n ∧ dst < src + n ∧ src < dst + n) →
   Q tt (with_data (λ d,
           foldr (λ i d', partial_alter (λ _, d !! (src + i)) (dst + i) d')
                 d (seqZ 0 n)) s)) →
  wp (memcpy dst src n) Q s.
Proof.
  intros H. unfold memcpy.
  destruct ((0 <? n) && (dst <? src + n) && (src <? dst + n)) eqn:E; [exact I|].
  apply wp_put, H. intros (? & ? & ?).
  apply not_true_iff_false in E. apply E.
  rewrite !andb_true_iff. repeat split; lia.
Qed.

(** ** The Region Provider's contract *)

(** Pages are a power of two of at least 8 bytes; a granted region is
    page-aligned, not empty, lies inside the address space and is disjoint
    from every arena granted before. *)
Record provider_ok (s : heap) (p : provider) : Prop := ProviderOk {
  page_pow2 : ∃ k, 3 ≤ k < 64 ∧ os_pagesize p = 2 ^ k;
  grant_ok : ∀ len, mmap p len ≠ 0 →
    0 < len ∧ 0 < mmap p len ∧ mmap p len + len ≤ 2 ^ 64 ∧
    mmap p len mod os_pagesize p = 0 ∧
    ∀ a h, arenas s !! a = Some h →
           mmap p len + len ≤ a ∨ a + ar_size h ≤ mmap p len
}.

Lemma provider_al8 s p len :
  provider_ok s p → mmap p len ≠ 0 → mmap p len mod 8 = 0.
Proof.
  intros [(k & Hk & Hps) Hg] Hm.
  destruct (Hg len Hm) as (_ & _ & _ & Hal & _).
  rewrite Hps in Hal.
  assert (Hk8 : 2 ^ k = 2 ^ (k - 3) * 8).
  { change 8 with (2 ^ 3). rewrite <- Z.pow_add_r by lia. f_equal. lia. }
  rewrite Hk8 in Hal.
  apply Z.mod_divide in Hal; [|by (assert (0 < 2 ^ (k - 3)) by (apply Z.pow_pos_nonneg; lia); lia)].
  apply Z.mod_divide; [lia|].
  destruct Hal as [c Hc]. exists (c * 2 ^ (k - 3)). lia.
Qed.

(** [os_alloc] asks for at least [n] bytes whenever it is granted. *)
Lemma os_need_ge s p n :
  provider_ok s p → 0 ≤ n < 2 ^ 64 → os_need p n ≠ 0 → n ≤ os_need p n.
Proof.
  intros [(k & Hk & Hps) _] Hn. unfold os_need. rewrite Hps.
  rewrite land_mask_pow2; [| lia | apply wrap_range].
  assert (Hpos : 0 < 2 ^ k) by (apply Z.pow_pos_nonneg; lia).
  assert (Hlt : 2 ^ k < 2 ^ 64) by (apply Z.pow_lt_mono_r; lia).
  destruct (decide (n + 2 ^ k - 1 < 2 ^ 64)) as [Hs|Hl].
  - rewrite wrap_small by lia. intros _.
    pose proof (Z.div_mod (n + 2 ^ k - 1) (2 ^ k)).
    pose proof (Z.mod_pos_bound (n + 2 ^ k - 1) (2 ^ k)). lia.
  - intros Hne. exfalso. apply Hne.
    assert (wrap (n + 2 ^ k - 1) = n + 2 ^ k - 1 - 2 ^ 64) as ->.
    { unfold wrap. symmetry. apply (Z.mod_unique _ _ 1); lia. }
    rewrite Z.div_small by lia. lia.
Qed.

Ltac wf_arena_step :=
  hsimpl;
  lazymatch goal with
  | Hwf : wf ?s |- wp (store_arena ?a ?h) _ ?s =>
      apply wp_store_arena;
      assert (wf (with_data (clobber a arena_header_size) (with_arenas <[a:=h]> s)))
        by (apply wf_store_arena; exact Hwf)
  | |- wp (load_arena _) _ _ => apply wp_load_arena; intros ? ?
  | Hwf : wf ?s |- wp (put (with_g_arenas ?a)) _ ?s =>
      apply wp_put;
      assert (wf (with_g_arenas a s))
        by (apply wf_with_g_arenas; [exact Hwf|]; hsimpl;
            rewrite ?lookup_insert; repeat case_decide; try done; eauto)
  | _ => wf_step
  end.

Lemma request_space_wf p size s :
  wf s → provider_ok s p → 0 ≤ size < 2 ^ 64 → size mod 8 = 0 →
  wp (request_space p size) (λ r s', wf s' ∧ link_ok (blocks s') r) s.
Proof.
  intros Hwf Hp Hsz Hal. unfold request_space.
  destruct (os_alloc p _ =? 0) eqn:Hmem.
  { apply wp_ret. split; [done | by left]. }
  apply Z.eqb_neq in Hmem. unfold os_alloc in *.
  pose proof (provider_al8 _ _ _ Hp Hmem) as Hm8.
  destruct Hp as [_ Hg]. destruct (Hg _ Hmem) as (_ & Hpos & _ & _ & _). clear Hg.
  set (mem := mmap p _) in *. clearbody mem.
  repeat wf_arena_step; (split; [assumption | solve [eauto with links]]).
Qed.

Ltac wf_call :=
  hsimpl;
  lazymatch goal with
  | Hwf : wf ?s |- wp (split_block ?b ?r) _ ?s =>
      eapply wp_mono; [| apply (split_block_wf b r s Hwf); solve_side];
      intros [] ? ?
  | Hwf : wf ?s |- wp (coalesce ?b) _ ?s =>
      eapply wp_mono; [| apply (coalesce_wf b s Hwf)];
      intros ? ? ?
  | _ => wf_step
  end.

Lemma link_ok_al8 s x : wf s → link_ok (blocks s) x → x mod 8 = 0 ∧ 0 ≤ x < 2 ^ 64.
Proof.
  intros Hwf [->|[h Hh]]; [done|].
  destruct (wf_load _ _ _ Hwf Hh). lia.
Qed.

Lemma j_malloc_wf fuel p size s :
  wf s → provider_ok s p →
  wp (j_malloc fuel p size) (λ r s', wf s' ∧ r mod 8 = 0 ∧ 0 ≤ r < 2 ^ 64) s.
Proof.
  intros Hwf Hp. unfold j_malloc.
  destruct (size =? 0); [by apply wp_ret|].
  pose proof (ALIGN_UP_8_range size). pose proof (ALIGN_UP_8_mod size).
  apply wp_bind, wp_find_first_fit. intros blk _ Hblk.
  destruct (blk =? 0) eqn:Hz.
  - apply wp_bind. eapply wp_mono; [|by apply request_space_wf].
    intros r s1 [Hwf1 Hr]. simpl.
    destruct (r =? 0); [by apply wp_ret|].
    destruct (link_ok_al8 _ _ Hwf1 Hr).
    apply wp_ptr_add. intros ?. split; [done|].
    split; [auto with al8 | done].
  - repeat wf_call; (split; [done|]; split; [auto with al8 | done]).
Qed.

Lemma j_free_wf ptr s : wf s → wp (j_free ptr) (λ _ s', wf s') s.
Proof.
  intros Hwf. unfold j_free.
  destruct (ptr =? 0); [by apply wp_ret|].
  repeat wf_call; done.
Qed.

Lemma j_realloc_wf fuel p ptr new_size s :
  wf s → provider_ok s p →
  wp (j_realloc fuel p ptr new_size) (λ r s', wf s' ∧ r mod 8 = 0) s.
Proof.
  intros Hwf Hp. unfold j_realloc.
  destruct (ptr =? 0).
  { eapply wp_mono; [|by apply j_malloc_wf]. by intros r s' (? & ? & ?). }
  destruct (new_size =? 0).
  { apply wp_bind. eapply wp_mono; [|by apply j_free_wf].
    intros [] s1 Hwf1. by apply wp_ret. }
  pose proof (ALIGN_UP_8_range new_size). pose proof (ALIGN_UP_8_mod new_size).
  set (ns := ALIGN_UP new_size ALIGNMENT) in *. clearbody ns.
  do 4 wf_step.
  assert (Hptr : ptr mod 8 = 0).
  { rewrite header_size_eq in *.
    replace ptr with ((ptr + - 32) + 32) by lia. auto with al8. }
  assert (Hback : ptr + - header_size + header_size = ptr) by lia.
  wf_step.
  - (* the block is large enough *)
    repeat wf_call; done.
  - apply wp_bind.
    apply (wp_mono _ (λ _ s', s' = s)).
    2:{ destruct (blk_next h =? 0); [by apply wp_ret|].
        apply wp_bind, wp_load. intros hn Hhn. by apply wp_ret. }
    intros mergeable ? ->. destruct mergeable.
    + (* forward merge *)
      repeat wf_call; rewrite Hback; done.
    + (* relocation *)
      apply wp_bind. eapply wp_mono; [|by apply j_malloc_wf].
      intros new_ptr s1 (Hwf1 & Hal & _). simpl.
      destruct (new_ptr =? 0); [by apply wp_ret|].
      apply wp_bind, wp_memcpy. intros _.
      apply wp_bind. eapply wp_mono; [|by apply j_free_wf, wf_with_data].
      intros [] s2 Hwf2. by apply wp_ret.
Qed.

(** ** Reachable states *)

(** What a caller can do: the three operations, and storing a byte into a
    payload it holds. *)
Inductive call :=
  | Allocate (size : Z)
  | Release (ptr : Z)
  | Resize (ptr new_size : Z)
  | Poke (addr : Z) (b : Byte.byte).

(** Arguments are [size_t] and pointer values. *)
Definition call_ok (c : call) : Prop :=
  match c with
  | Allocate size => 0 ≤ size < 2 ^ 64
  | Release ptr => 0 ≤ ptr < 2 ^ 64
  | Resize ptr new_size => 0 ≤ ptr < 2 ^ 64 ∧ 0 ≤ new_size < 2 ^ 64
  | Poke addr _ => 0 ≤ addr < 2 ^ 64
  end.

Definition exec (fuel : nat) (p : provider) (c : call) : M Z :=
  match c with
  | Allocate size => j_malloc fuel p size
  | Release ptr => j_free ptr;; ret 0
  | Resize ptr new_size => j_realloc fuel p ptr new_size
  | Poke addr b => put (with_data <[addr:=b]>);; ret 0
  end.

(** States reached from the empty allocator by calls that complete, each
    served by a provider that honours its contract. *)
Inductive reachable : heap → Prop :=
  | reachable_init : reachable heap_init
  | reachable_step s fuel p c r s' :
      reachable s → provider_ok s p → call_ok c →
      exec fuel p c s = Some (r, s') → reachable s'.

Lemma exec_wf fuel p c s r s' :
  wf s → provider_ok s p → exec fuel p c s = Some (r, s') → wf s'.
Proof.
  intros Hwf Hp He. destruct c as [size|ptr|ptr new_size|addr b]; simpl in He.
  - by destruct (wp_elim _ _ _ _ _ (j_malloc_wf fuel p size s Hwf Hp) He).
  - apply bind_Some in He as ([] & s1 & Hf & [= _ <-]).
    exact (wp_elim _ _ _ _ _ (j_free_wf ptr s Hwf) Hf).
  - by destruct (wp_elim _ _ _ _ _ (j_realloc_wf fuel p ptr new_size s Hwf Hp) He).
  - injection He as _ <-. by apply wf_with_data.
Qed.

Lemma reachable_wf s : reachable s → wf s.
Proof.
  induction 1 as [|s fuel p c r s' _ IH Hp _ He]; [apply wf_heap_init|].
  by eapply exec_wf.
Qed.

(** A provider that grants every request of at most [2^40] bytes at
    [base], with pages of [ps] bytes. *)
Definition provider_at (ps base : Z) : provider :=
  Provider ps (λ len, if (0 <? len) && (len <=? 2 ^ 40) then base else 0).

(** A provider that is out of memory. *)
Definition provider_none : provider := Provider 4096 (λ _, 0).

Lemma provider_none_ok s : provider_ok s provider_none.
Proof.
  constructor.
  - exists 12. split; [lia | reflexivity].
  - simpl. done.
Qed.

Lemma provider_at_ok_init : provider_ok heap_init (provider_at 4096 2105344).
Proof.
  constructor.
  - exists 12. split; [lia | reflexivity].
  - intros len. simpl.
    destruct ((0 <? len) && (len <=? 2 ^ 40)) eqn:E; [|done].
    apply andb_true_iff in E as [E1 E2]. intros _.
    split_and!; try lia; try reflexivity.
    intros a h. simpl. by rewrite lookup_empty.
Qed.

(** ** C2: payload addresses are 8-aligned *)

(** C2.  In every reachable state, whatever address [j_malloc] returns for
    a request of at least one byte is a multiple of 8, and so is whatever
    [j_realloc] returns. *)
Theorem payload_address_aligned fuel p s :
  reachable s → provider_ok s p →
  (∀ size r s', 1 ≤ size → j_malloc fuel p size s = Some (r, s') → r mod 8 = 0) ∧
  (∀ ptr new_size r s',
     j_realloc fuel p ptr new_size s = Some (r, s') → r mod 8 = 0).
Proof.
  intros Hr Hp. apply reachable_wf in Hr. split.
  - intros size r s' _ He.
    by destruct (wp_elim _ _ _ _ _ (j_malloc_wf fuel p size s Hr Hp) He) as (_ & ? & _).
  - intros ptr new_size r s' He.
    by destruct (wp_elim _ _ _ _ _ (j_realloc_wf fuel p ptr new_size s Hr Hp) He).
Qed.

Lemma payload_address_aligned_witness :
  j_malloc 1 (provider_at 4096 2105344) 13 heap_init ≠ None ∧
  ∀ r s', j_malloc 1 (provider_at 4096 2105344) 13 heap_init = Some (r, s') →
          r = 2105408 ∧ r mod 8 = 0.
Proof.
  split; [by vm_compute|].
  intros r s' He. split.
  - vm_compute in He. by injection He as <- _.
  - destruct (payload_address_aligned 1 (provider_at 4096 2105344) heap_init
                reachable_init provider_at_ok_init) as [Hm _].
    eapply Hm; [|exact He]. lia.
Defined.

(** ** Total correctness *)

(** [twp m Q s]: [m] is defined on [s], and its result and final state
    satisfy [Q]. *)
Definition twp {A} (m : M A) (Q : A → heap → Prop) (s : heap) : Prop :=
  match m s with
  | Some (x, s') => Q x s'
  | None => False
  end.

Lemma twp_elim {A} (m : M A) Q s : twp m Q s → ∃ x s', m s = Some (x, s') ∧ Q x s'.
Proof. unfold twp. destruct (m s) as [[x s']|]; [eauto | done]. Qed.

Lemma twp_intro {A} (m : M A) (Q : A → heap → Prop) s x s' :
  m s = Some (x, s') → Q x s' → twp m Q s.
Proof. unfold twp. by intros ->. Qed.

Lemma twp_wp {A} (m : M A) Q s : twp m Q s → wp m Q s.
Proof. unfold twp, wp. by destruct (m s) as [[x s']|]. Qed.

Lemma twp_mono {A} (m : M A) (Q Q' : A → heap → Prop) s :
  (∀ x s', Q x s' → Q' x s') → twp m Q s → twp m Q' s.
Proof. unfold twp. intros H. destruct (m s) as [[x s']|]; auto. Qed.

Lemma twp_bind {A B} (m : M A) (k : A → M B) Q s :
  twp m (λ x s', twp (k x) Q s') s → twp (bind m k) Q s.
Proof. unfold twp, bind. destruct (m s) as [[x s']|]; auto. Qed.

Lemma twp_ret {A} (x : A) (Q : A → heap → Prop) s : Q x s → twp (ret x) Q s.
Proof. auto. Qed.

Lemma twp_get {A} (f : heap → A) (Q : A → heap → Prop) s : Q (f s) s → twp (get f) Q s.
Proof. auto. Qed.

Lemma twp_put f (Q : unit → heap → Prop) s : Q tt (f s) → twp (put f) Q s.
Proof. auto. Qed.

Lemma twp_ptr_add a n (Q : Z → heap → Prop) s :
  0 ≤ a + n < 2 ^ 64 → Q (a + n) s → twp (ptr_add a n) Q s.
Proof.
  intros Hr H. unfold ptr_add.
  destruct (0 <=? a + n) eqn:E1; [destruct (a + n <? 2 ^ 64) eqn:E2|]; simpl; try lia.
  by apply twp_ret.
Qed.

Lemma twp_load a (Q : block_header → heap → Prop) s :
  is_Some (blocks s !! a) → (∀ h, blocks s !! a = Some h → Q h s) → twp (load a) Q s.
Proof. intros [h Hh] H. unfold twp, load. rewrite Hh. auto. Qed.

Lemma twp_when c m (Q : unit → heap → Prop) s :
  (c = true → twp m Q s) → (c = false → Q tt s) → twp (when c m) Q s.
Proof. intros H1 H2. destruct c; [apply H1 | apply twp_ret, H2]; reflexivity. Qed.

Lemma twp_store_wf a h (Q : unit → heap → Prop) s :
  wf s → hdr_ok (<[a:=h]> (blocks s)) a h →
  (∀ s1, wf s1 → link_ok (blocks s1) a →
         (∀ x, link_ok (blocks s) x → link_ok (blocks s1) x) →
         g_head s1 = g_head s → g_tail s1 = g_tail s → Q tt s1) →
  twp (store a h) Q s.
Proof.
  intros Hwf Hok HQ. unfold twp, store. apply HQ; try done.
  - by apply wf_store.
  - simpl. auto with links.
  - simpl. auto with links.
Qed.

(** A non-null link is a stored header. *)
Ltac solve_stored :=
  hsimpl;
  lazymatch goal with
  | |- is_Some (blocks ?s !! ?a) =>
      match goal with
      | H : is_Some (blocks s !! a) |- _ => exact H
      | H : blocks s !! a = Some _ |- _ => rewrite H; eexists; reflexivity
      | H : link_ok (blocks s) a |- _ =>
          let Hz := fresh in
          destruct H as [Hz|H]; [exfalso; rewrite ?header_size_eq in *; lia | exact H]
      end
  end.

Ltac twf_step :=
  hsimpl;
  lazymatch goal with
  | |- twp (bind _ _) _ _ => apply twp_bind
  | |- twp (ret _) _ _ => apply twp_ret
  | |- twp (get _) _ _ => apply twp_get
  | |- twp (ptr_add _ _) _ _ =>
      apply twp_ptr_add; [rewrite ?header_size_eq in *; lia|]
  | Hwf : wf ?s |- twp (load ?a) _ ?s =>
      let h := fresh "h" in let Hh := fresh "Hh" in
      apply twp_load; [solve_stored|];
      intros h Hh;
      pose proof (link_ok_lookup _ _ _ Hh);
      destruct (wf_load _ _ _ Hwf Hh)
  | Hwf : wf ?s |- twp (store ?a ?h) _ ?s =>
      let s1 := fresh "s" in let Hwf1 := fresh "Hwf" in let Hext := fresh "Hext" in
      apply (twp_store_wf a h _ s Hwf);
      [ constructor; solve_side
      | intros s1 Hwf1 ? Hext ? ?; hsimpl; transport Hext; clear Hext ]
  | |- twp (set_size _ _) _ _ => unfold set_size
  | |- twp (set_free _ _) _ _ => unfold set_free
  | |- twp (set_next _ _) _ _ => unfold set_next
  | |- twp (set_prev _ _) _ _ => unfold set_prev
  | Hwf : wf ?s |- twp (put (with_g_tail ?v)) _ ?s =>
      apply twp_put;
      assert (wf (with_g_tail v s)) by (apply wf_with_g_tail; [exact Hwf | solve_side])
  | Hwf : wf ?s |- twp (put (with_g_free_bytes ?v)) _ ?s =>
      apply twp_put;
      assert (wf (with_g_free_bytes v s)) by (apply wf_with_g_free_bytes; exact Hwf)
  | |- twp (when _ _) _ _ => apply twp_when; intros ?
  | |- twp (if ?c =? 0 then _ else _) _ _ =>
      let E := fresh "E" in
      destruct (c =? 0) eqn:E; [apply Z.eqb_eq in E | apply Z.eqb_neq in E]
  | |- twp (if ?c then _ else _) _ _ => destruct c eqn:?
  end.

(** [split_block] runs to completion on a stored block when the new
    header's address stays inside the address space. *)
Lemma split_block_total blk req s :
  wf s → is_Some (blocks s !! blk) → 0 ≤ req < 2 ^ 64 → req mod 8 = 0 →
  blk + header_size + req < 2 ^ 64 →
  twp (split_block blk req) (λ _ s', wf s' ∧ is_Some (blocks s' !! blk)) s.
Proof.
  intros Hwf Hblk Hr Hm Hfit. unfold split_block.
  assert (link_ok (blocks s) blk) by (by right).
  repeat twf_step; (split; [assumption | solve_stored]).
Qed.

(** [coalesce] runs to completion on every stored block. *)
Lemma coalesce_total blk s :
  wf s → is_Some (blocks s !! blk) →
  twp (coalesce blk) (λ _ s', wf s') s.
Proof.
  intros Hwf Hblk. unfold coalesce.
  assert (link_ok (blocks s) blk) by (by right).
  repeat twf_step; assumption.
Qed.

(** ** C7: release is idempotent *)

(** The header stored at [a] is marked free. *)
Definition free_at (a : Z) (s : heap) : Prop :=
  ∃ h, blocks s !! a = Some h ∧ blk_free h = true.

Lemma wp_store_free a a' h' (Q : unit → heap → Prop) s :
  free_at a s → (a' = a → blk_free h' = true) →
  (∀ s1, free_at a s1 → Q tt s1) → wp (store a' h') Q s.
Proof.
  intros (h & Hh & Hf) Hok HQ. apply wp_store, HQ.
  unfold free_at. simpl. rewrite lookup_insert. case_decide; eauto.
Qed.

Lemma free_at_load a s a' h :
  free_at a s → blocks s !! a' = Some h → a' = a → blk_free h = true.
Proof. intros (h0 & Hh0 & Hf) Hh ->. by simplify_eq. Qed.

Lemma free_at_put a s s' : blocks s' = blocks s → free_at a s → free_at a s'.
Proof. unfold free_at. by intros ->. Qed.

Ltac fr_step :=
  hsimpl;
  lazymatch goal with
  | |- wp (bind _ _) _ _ => apply wp_bind
  | |- wp (ret _) _ _ => apply wp_ret
  | |- wp (get _) _ _ => apply wp_get
  | Hfr : free_at ?a ?s |- wp (load ?a') _ ?s =>
      let h := fresh "h" in let Hh := fresh "Hh" in
      apply wp_load; intros h Hh;
      pose proof (free_at_load a s a' h Hfr Hh)
  | Hfr : free_at ?a ?s |- wp (store ?a' ?h') _ ?s =>
      apply (wp_store_free a a' h' _ s Hfr); [hsimpl; assumption | clear Hfr; intros ? Hfr]
  | |- wp (set_size _ _) _ _ => unfold set_size
  | |- wp (set_next _ _) _ _ => unfold set_next
  | |- wp (set_prev _ _) _ _ => unfold set_prev
  | Hfr : free_at ?a ?s |- wp (put ?f) _ ?s =>
      apply wp_put; apply (free_at_put a s (f s) eq_refl) in Hfr
  | |- wp (when _ _) _ _ => apply wp_when; intros ?
  | |- wp (if ?c then _ else _) _ _ => destruct c eqn:?
  end.

(** Coalescing never clears a free flag. *)
Lemma coalesce_keeps_free a blk s :
  free_at a s → wp (coalesce blk) (λ _ s', free_at a s') s.
Proof.
  intros Hfr. unfold coalesce. repeat fr_step; assumption.
Qed.

Lemma j_free_marks_free ptr s :
  ptr ≠ 0 → wp (j_free ptr) (λ _ s', free_at (ptr + - header_size) s') s.
Proof.
  intros Hnz. unfold j_free.
  destruct (ptr =? 0) eqn:E; [apply Z.eqb_eq in E; done|].
  apply wp_bind, wp_ptr_add. intros _.
  apply wp_bind, wp_load. intros h Hh.
  destruct (blk_free h) eqn:Hf.
  { apply wp_ret. by exists h. }
  apply wp_bind. unfold set_free. apply wp_bind, wp_load. intros h0 Hh0.
  apply wp_store.
  match goal with |- wp _ _ ?s1 => assert (Hfr : free_at (ptr + - header_size) s1) end.
  { eexists. simpl. rewrite lookup_insert_eq. done. }
  repeat fr_step.
  eapply wp_mono; [|by apply coalesce_keeps_free].
  intros r s2 Hfr2. by apply wp_ret.
Qed.

Lemma j_free_total ptr s :
  wf s → is_Some (blocks s !! (ptr + - header_size)) →
  twp (j_free ptr) (λ _ s', wf s') s.
Proof.
  intros Hwf Hblk. unfold j_free.
  destruct Hblk as [hb Hhb]. destruct (wf_load _ _ _ Hwf Hhb).
  pose proof (link_ok_lookup _ _ _ Hhb).
  destruct (ptr =? 0) eqn:E; [apply Z.eqb_eq in E; rewrite header_size_eq in *; lia|].
  do 5 twf_step; [done|].
  repeat twf_step.
  eapply twp_mono; [|apply coalesce_total; [assumption | solve_stored]].
  intros r s2 Hwf2. by apply twp_ret.
Qed.

Lemma j_free_already_free ptr s h :
  0 ≤ ptr + - header_size < 2 ^ 64 →
  blocks s !! (ptr + - header_size) = Some h → blk_free h = true →
  j_free ptr s = Some (tt, s).
Proof.
  intros Hr Hh Hf. unfold j_free.
  destruct (ptr =? 0); [done|].
  unfold bind, ptr_add.
  destruct (0 <=? ptr + - header_size) eqn:E1; [|lia].
  destruct (ptr + - header_size <? 2 ^ 64) eqn:E2; [|lia].
  simpl. unfold load. rewrite Hh, Hf. done.
Qed.

(** C7.  Releasing NULL changes nothing; releasing a pointer whose block is
    already marked free changes nothing; and in a well-formed state,
    releasing the payload pointer of any stored block completes, after
    which releasing the same pointer again completes and leaves the state
    (chain, flags, counters, payload bytes) exactly as the first call left
    it. *)
Theorem release_idempotent :
  (∀ s, j_free 0 s = Some (tt, s)) ∧
  (∀ s ptr h,
     0 ≤ ptr - header_size < 2 ^ 64 →
     blocks s !! (ptr - header_size) = Some h → blk_free h = true →
     j_free ptr s = Some (tt, s)) ∧
  (∀ s ptr,
     wf s → is_Some (blocks s !! (ptr - header_size)) →
     ∃ s1, j_free ptr s = Some (tt, s1) ∧ j_free ptr s1 = Some (tt, s1)).
Proof.
  split; [done|]. split.
  - intros s ptr h. rewrite <- Z.add_opp_r. apply j_free_already_free.
  - intros s ptr Hwf Hblk. rewrite <- Z.add_opp_r in Hblk.
    destruct (twp_elim _ _ _ (j_free_total ptr s Hwf Hblk)) as ([] & s1 & He & Hwf1).
    exists s1. split; [done|].
    assert (Hnz : ptr ≠ 0).
    { destruct Hblk as [hb Hhb]. destruct (wf_load _ _ _ Hwf Hhb).
      rewrite header_size_eq in *. lia. }
    destruct (wp_elim _ _ _ _ _ (j_free_marks_free ptr s Hnz) He) as (h & Hh & Hf).
    destruct (wf_load _ _ _ Hwf1 Hh).
    apply (j_free_already_free ptr s1 h); [lia | done | done].
Qed.

(** Example states, obtained by running calls from the empty allocator
    against a provider that places the first arena at 2105344. *)
Definition demo_provider : provider := provider_at 4096 2105344.

Definition state_of {A} (r : option (A * heap)) : heap :=
  match r with
  | Some (_, s) => s
  | None => heap_init
  end.

(** After [j_malloc(1024)]: one used block of 1024 bytes with payload at
    2105408, followed by the free remainder of the arena. *)
Definition heap_one : heap := state_of (j_malloc 1 demo_provider 1024 heap_init).

Lemma heap_one_reachable : reachable heap_one.
Proof.
  apply (reachable_step heap_init 1 demo_provider (Allocate 1024) 2105408 heap_one).
  - apply reachable_init.
  - apply provider_at_ok_init.
  - simpl. lia.
  - by vm_compute.
Qed.

Lemma release_idempotent_witness :
  ∃ s1, j_free 2105408 heap_one = Some (tt, s1) ∧ j_free 2105408 s1 = Some (tt, s1).
Proof.
  apply release_idempotent.
  - apply reachable_wf, heap_one_reachable.
  - eexists. by vm_compute.
Defined.

(** ** C6: a failed relocation leaves everything untouched *)

(** [request_space] returns NULL only when [os_alloc] does, and then the
    state is the one it started from. *)
Lemma request_space_null p size s :
  provider_ok s p →
  wp (request_space p size)
     (λ r s', r = 0 → s' = s ∧
        os_alloc p (wrap (arena_header_size +
          (if ARENA_MIN_SIZE <? wrap (header_size + size)
           then wrap (header_size + size) else ARENA_MIN_SIZE))) = 0) s.
Proof.
  intros Hp. unfold request_space.
  destruct (os_alloc p _ =? 0) eqn:Hmem.
  { apply Z.eqb_eq in Hmem. by apply wp_ret. }
  apply Z.eqb_neq in Hmem. unfold os_alloc in *.
  destruct Hp as [_ Hg]. destruct (Hg _ Hmem) as (_ & Hpos & _ & _ & _). clear Hg.
  repeat wp_step; intros; rewrite ?arena_header_size_eq in *; lia.
Qed.

(** What "the fresh allocation of [size] bytes fails" means: no free block
    fits and the provider refuses a new arena. *)
Definition allocation_fails (fuel : nat) (p : provider) (size : Z) (s : heap) : Prop :=
  first_fit_from fuel (blocks s) (g_head s) size = Some 0 ∧
  os_alloc p (wrap (arena_header_size +
    (if ARENA_MIN_SIZE <? wrap (header_size + size)
     then wrap (header_size + size) else ARENA_MIN_SIZE))) = 0.

Lemma wp_conj {A} (m : M A) (Q1 Q2 : A → heap → Prop) s :
  wp m Q1 s → wp m Q2 s → wp m (λ x s', Q1 x s' ∧ Q2 x s') s.
Proof. unfold wp. by destruct (m s) as [[x s']|]. Qed.

Lemma link_ok_pos s x : wf s → link_ok (blocks s) x → x ≠ 0 → 0 < x.
Proof.
  intros Hwf [->|[h Hh]] Hnz; [done|].
  by destruct (wf_load _ _ _ Hwf Hh) as [[? _] _ _ _ _ _].
Qed.

Lemma j_malloc_null fuel p size s :
  wf s → provider_ok s p → size ≠ 0 →
  wp (j_malloc fuel p size)
     (λ r s', r = 0 → s' = s ∧ allocation_fails fuel p (ALIGN_UP size ALIGNMENT) s) s.
Proof.
  intros Hwf Hp Hnz. unfold j_malloc.
  destruct (size =? 0) eqn:E; [apply Z.eqb_eq in E; done|].
  pose proof (ALIGN_UP_8_range size). pose proof (ALIGN_UP_8_mod size).
  apply wp_bind, wp_find_first_fit. intros blk Hff Hblk.
  destruct (blk =? 0) eqn:Hz.
  - apply Z.eqb_eq in Hz. subst blk.
    apply wp_bind.
    eapply wp_mono;
      [|apply wp_conj; [by apply request_space_null | by apply request_space_wf]].
    intros r s1 [Hr [Hwf1 Hl]]. simpl.
    destruct (r =? 0) eqn:Er.
    + apply Z.eqb_eq in Er. apply wp_ret. intros _.
      destruct (Hr Er) as [-> Hos]. by split.
    + apply Z.eqb_neq in Er. pose proof (link_ok_pos _ _ Hwf1 Hl Er).
      apply wp_ptr_add. rewrite header_size_eq. intros ? ?. lia.
  - apply Z.eqb_neq in Hz. pose proof (link_ok_pos _ _ Hwf Hblk Hz).
    unfold split_block.
    repeat wp_step; rewrite header_size_eq in *; intros; lia.
Qed.

(** C6.  In a well-formed state, when [j_realloc] is called with a non-null
    pointer and a non-zero size and returns NULL, then the fresh allocation
    of the rounded size failed (no free block fits and the provider refused
    a new arena), and the final state is the initial one: chain, headers,
    payload bytes and counters are all as before the call. *)
Theorem resize_failure_untouched fuel p ptr new_size s s' :
  wf s → provider_ok s p → ptr ≠ 0 → new_size ≠ 0 →
  j_realloc fuel p ptr new_size s = Some (0, s') →
  s' = s ∧
  allocation_fails fuel p (ALIGN_UP new_size ALIGNMENT) s ∧
  j_malloc fuel p (ALIGN_UP new_size ALIGNMENT) s = Some (0, s).
Proof.
  intros Hwf Hp Hptr Hsz He.
  assert (Hgoal : wp (j_realloc fuel p ptr new_size)
            (λ r s1, r = 0 → s1 = s ∧
               allocation_fails fuel p (ALIGN_UP new_size ALIGNMENT) s ∧
               j_malloc fuel p (ALIGN_UP new_size ALIGNMENT) s = Some (0, s)) s).
  2:{ by apply (wp_elim _ _ _ _ _ Hgoal He). }
  clear He s'. unfold j_realloc.
  destruct (ptr =? 0) eqn:E1; [apply Z.eqb_eq in E1; done|].
  destruct (new_size =? 0) eqn:E2; [apply Z.eqb_eq in E2; done|].
  pose proof (ALIGN_UP_8_range new_size) as Hr. pose proof (ALIGN_UP_8_mod new_size) as Hm.
  set (ns := ALIGN_UP new_size ALIGNMENT) in *.
  apply wp_bind, wp_ptr_add. intros Hblk.
  apply wp_bind, wp_load. intros h Hh.
  destruct (ns <=? blk_size h) eqn:Hfit.
  { apply wp_bind. eapply wp_mono; [|apply wp_intro; intros; exact I].
    intros _ s1 _. apply wp_ret. done. }
  apply wp_bind.
  apply (wp_mono _ (λ _ s', s' = s)).
  2:{ destruct (blk_next h =? 0); [by apply wp_ret|].
      apply wp_bind, wp_load. intros hn Hhn. by apply wp_ret. }
  intros mergeable ? ->. destruct mergeable.
  - repeat (apply wp_bind; eapply wp_mono; [|apply wp_intro; intros; exact I];
            intros ? ? _; hsimpl).
    apply wp_ptr_add. rewrite header_size_eq in *. intros ? ?. lia.
  - apply wp_bind, wp_intro. intros new_ptr s1 Hmalloc.
    destruct (new_ptr =? 0) eqn:En.
    + apply Z.eqb_eq in En. subst new_ptr. apply wp_ret. intros _.
      assert (Hns : ns ≠ 0).
      { intros Hz. rewrite Hz in Hfit. apply Z.leb_gt in Hfit.
        destruct (wf_load _ _ _ Hwf Hh). lia. }
      pose proof (wp_elim _ _ _ _ _ (j_malloc_null fuel p ns s Hwf Hp Hns) Hmalloc eq_refl)
        as [-> Hfail].
      rewrite (ALIGN_UP_8_fix ns Hr Hm) in Hfail.
      split; [done|]. split; [done|].
      unfold ns in Hmalloc |- *. exact Hmalloc.
    + apply Z.eqb_neq in En.
      repeat (apply wp_bind; eapply wp_mono; [|apply wp_intro; intros; exact I];
              intros ? ? _; hsimpl).
      apply wp_ret. done.
Qed.

Lemma resize_failure_untouched_witness :
  j_realloc 2 provider_none 2105408 2097152 heap_one = Some (0, heap_one) ∧
  allocation_fails 2 provider_none (ALIGN_UP 2097152 ALIGNMENT) heap_one.
Proof.
  assert (He : j_realloc 2 provider_none 2105408 2097152 heap_one = Some (0, heap_one))
    by (by vm_compute).
  split; [exact He|].
  refine (proj1 (proj2 (resize_failure_untouched 2 provider_none 2105408 2097152
                          heap_one heap_one _ _ _ _ He))).
  - apply reachable_wf, heap_one_reachable.
  - apply provider_none_ok.
  - lia.
  - lia.
Defined.

(** ** C1: [j_free_bytes] is the scan of the chain *)

(** The independent scan: walk the chain from [cur] and collect the blocks
    met, with the same bound on the number of steps. *)
Fixpoint chain_from (fuel : nat) (bs : gmap Z block_header) (cur : Z)
  : option (list (Z * block_header)) :=
  if cur =? 0 then Some []
  else match fuel with
       | O => None
       | S fuel' =>
           match bs !! cur with
           | None => None
           | Some h => (λ l, (cur, h) :: l) <$> chain_from fuel' bs (blk_next h)
           end
       end.


(** [l] is the chain that starts at [cur]: it follows the [next] links and
    ends at NULL. *)
Inductive is_chain (bs : gmap Z block_header) : Z → list (Z * block_header) → Prop :=
  | is_chain_nil : is_chain bs 0 []
  | is_chain_cons cur h l :
      cur ≠ 0 → bs !! cur = Some h → is_chain bs (blk_next h) l →
      is_chain bs cur ((cur, h) :: l).




Lemma chain_from_sound fuel bs cur l :
  chain_from fuel bs cur = Some l → is_chain bs cur l.
Proof.
  revert cur l. induction fuel as [|fuel IH]; intros cur l; simpl.
  - destruct (cur =? 0) eqn:E; [|done]. apply Z.eqb_eq in E. intros [= <-].
    subst. constructor.
  - destruct (cur =? 0) eqn:E.
    { apply Z.eqb_eq in E. intros [= <-]. subst. constructor. }
    apply Z.eqb_neq in E.
    destruct (bs !! cur) as [h|] eqn:Hh; [|done].
    destruct (chain_from fuel bs (blk_next h)) as [l'|] eqn:Hc; [|done].
    intros [= <-]. constructor; auto.
Qed.





(** ** The arena ledger *)

Definition zsum (l : list Z) : Z := foldr Z.add 0 l.

Lemma zsum_perm l1 l2 : l1 ≡ₚ l2 → zsum l1 = zsum l2.
Proof. induction 1; simpl; lia. Qed.

Lemma zsum_filter_split (P : Z * Z → Prop) `{∀ x, Decision (P x)} (l : list (Z * Z)) :
  zsum (l.*2) = zsum ((filter P l).*2) + zsum ((filter (λ x, ¬ P x) l).*2).
Proof.
  induction l as [|x l IH]; [done|].
  rewrite !filter_cons. unfold zsum in *.
  destruct (decide (P x)), (decide (¬ P x)); rewrite ?fmap_cons; cbn [foldr];
    try tauto; lia.
Qed.

(** Pairwise disjoint, non-empty intervals inside [[lo, hi)] have a total
    length of at most [hi - lo]. *)
Lemma interval_sum_bound (n : nat) :
  ∀ (l : list (Z * Z)) lo hi,
    (length l ≤ n)%nat → lo ≤ hi → NoDup l →
    (∀ x, x ∈ l → lo ≤ x.1 ∧ 0 < x.2 ∧ x.1 + x.2 ≤ hi) →
    (∀ x y, x ∈ l → y ∈ l → x ≠ y → x.1 + x.2 ≤ y.1 ∨ y.1 + y.2 ≤ x.1) →
    zsum (l.*2) ≤ hi - lo.
Proof.
  induction n as [|n IH]; intros l lo hi Hlen Hle Hnd Hin Hdisj.
  { destruct l; [simpl; lia | simpl in Hlen; lia]. }
  destruct l as [|x l]; [simpl; lia|].
  apply NoDup_cons in Hnd as [Hx Hnd].
  destruct (Hin x) as (Hx1 & Hx2 & Hx3); [left|].
  rewrite fmap_cons. change (zsum (x.2 :: l.*2)) with (x.2 + zsum (l.*2)).
  rewrite (zsum_filter_split (λ y, y.1 + y.2 ≤ x.1) l).
  assert (Hlo : zsum ((filter (λ y, y.1 + y.2 ≤ x.1) l).*2) ≤ x.1 - lo).
  { apply IH.
    - pose proof (length_filter (λ y, y.1 + y.2 ≤ x.1) l). simpl in Hlen. lia.
    - lia.
    - by apply NoDup_filter.
    - intros y [Hy1 Hy2]%list_elem_of_filter.
      destruct (Hin y) as (? & ? & ?); [by right|]. lia.
    - intros y z [_ Hy]%list_elem_of_filter [_ Hz]%list_elem_of_filter Hne.
      apply Hdisj; [by right | by right | done]. }
  assert (Hhi : zsum ((filter (λ y, ¬ y.1 + y.2 ≤ x.1) l).*2) ≤ hi - (x.1 + x.2)).
  { apply IH.
    - pose proof (length_filter (λ y, ¬ y.1 + y.2 ≤ x.1) l). simpl in Hlen. lia.
    - lia.
    - by apply NoDup_filter.
    - intros y [Hy1 Hy2]%list_elem_of_filter.
      destruct (Hin y) as (? & ? & ?); [by right|].
      destruct (Hdisj x y) as [?|?]; [by left | by right | by intros -> | lia | lia].
    - intros y z [_ Hy]%list_elem_of_filter [_ Hz]%list_elem_of_filter Hne.
      apply Hdisj; [by right | by right | done]. }
  lia.
Qed.

(** The sizes recorded in the arena registry, by arena address. *)
Definition arena_sizes (s : heap) : gmap Z Z := ar_size <$> arenas s.

Definition size_sum (m : gmap Z Z) : Z := zsum ((map_to_list m).*2).

(** The registry is consistent with the provider's grants: every arena
    lies in the address space above NULL, arenas are pairwise disjoint,
    and [g_total_bytes] is the sum of their sizes. *)
Record ledger (s : heap) : Prop := Ledger {
  ledger_range : ∀ a sz, arena_sizes s !! a = Some sz → 0 < a ∧ 0 < sz ∧ a + sz ≤ 2 ^ 64;
  ledger_disj : ∀ a1 sz1 a2 sz2,
    a1 ≠ a2 → arena_sizes s !! a1 = Some sz1 → arena_sizes s !! a2 = Some sz2 →
    a1 + sz1 ≤ a2 ∨ a2 + sz2 ≤ a1;
  ledger_total : g_total_bytes s = size_sum (arena_sizes s)
}.

Lemma size_sum_bound (m : gmap Z Z) :
  (∀ a sz, m !! a = Some sz → 0 < a ∧ 0 < sz ∧ a + sz ≤ 2 ^ 64) →
  (∀ a1 sz1 a2 sz2, a1 ≠ a2 → m !! a1 = Some sz1 → m !! a2 = Some sz2 →
                    a1 + sz1 ≤ a2 ∨ a2 + sz2 ≤ a1) →
  size_sum m ≤ 2 ^ 64 - 1.
Proof.
  intros Hr Hd. unfold size_sum.
  apply (interval_sum_bound (length (map_to_list m)) _ 1 (2 ^ 64)).
  - done.
  - lia.
  - apply NoDup_map_to_list.
  - intros [a sz] Hx%elem_of_map_to_list. simpl. destruct (Hr a sz Hx). lia.
  - intros [a1 sz1] [a2 sz2] H1%elem_of_map_to_list H2%elem_of_map_to_list Hne. simpl.
    apply (Hd a1 sz1 a2 sz2); [|done|done].
    intros ->. apply Hne. f_equal. congruence.
Qed.

Lemma size_sum_insert m a sz : m !! a = None → size_sum (<[a:=sz]> m) = sz + size_sum m.
Proof.
  intros Hm. unfold size_sum.
  rewrite (zsum_perm _ _ (fmap_Permutation snd _ _ (map_to_list_insert m a sz Hm))).
  done.
Qed.

Lemma ledger_init : ledger heap_init.
Proof.
  constructor; unfold arena_sizes; simpl.
  - intros a sz. by rewrite fmap_empty, lookup_empty.
  - intros a1 sz1 a2 sz2 _. by rewrite fmap_empty, lookup_empty.
  - unfold size_sum. by rewrite fmap_empty, map_to_list_empty.
Qed.

Lemma os_need_0 s p : provider_ok s p → os_need p 0 = 0.
Proof.
  intros [(k & Hk & Hps) _]. unfold os_need. rewrite Hps.
  rewrite land_mask_pow2; [| lia | apply wrap_range].
  assert (Hpos : 0 < 2 ^ k) by (apply Z.pow_pos_nonneg; lia).
  assert (Hlt : 2 ^ k < 2 ^ 64) by (apply Z.pow_lt_mono_r; lia).
  rewrite wrap_small by lia. rewrite Z.div_small by lia. lia.
Qed.

(** Symbolic execution that forgets what block headers were read. *)
Ltac frame_step :=
  hsimpl;
  lazymatch goal with
  | |- wp (load _) _ _ => apply wp_load; intros ? _
  | |- wp (if _ =? 0 then _ else _) _ _ => destruct (_ =? 0)
  | |- wp (when _ _) _ _ => apply wp_when; intros _
  | _ => wp_step
  end.

(** What a call leaves alone when it obtains no arena. *)
Definition same_arenas (s s' : heap) : Prop :=
  arenas s' = arenas s ∧ g_total_bytes s' = g_total_bytes s.

Lemma split_block_same_arenas blk req s :
  wp (split_block blk req) (λ _ s', same_arenas s s') s.
Proof. unfold split_block. repeat frame_step; by split. Qed.

Lemma coalesce_same_arenas blk s :
  wp (coalesce blk) (λ _ s', same_arenas s s') s.
Proof. unfold coalesce. repeat frame_step; by split. Qed.

Lemma j_free_same_arenas ptr s :
  wp (j_free ptr) (λ _ s', same_arenas s s') s.
Proof. unfold j_free, coalesce. repeat frame_step; by split. Qed.

(** The arena a request of [size] bytes asks for: [arena_total]. *)
Definition arena_total (size : Z) : Z :=
  wrap (arena_header_size +
        (if ARENA_MIN_SIZE <? wrap (header_size + size)
         then wrap (header_size + size) else ARENA_MIN_SIZE)).

(** [request_space] either fails and changes nothing, or registers one
    arena of [arena_total size] bytes at the address the provider gave and
    adds that size to [g_total_bytes]. *)
Lemma request_space_ledger p size s :
  provider_ok s p →
  wp (request_space p size)
     (λ r s',
        (r = 0 ∧ s' = s) ∨
        (r = os_alloc p (arena_total size) + arena_header_size ∧ r ≠ 0 ∧
         os_alloc p (arena_total size) ≠ 0 ∧
         arena_sizes s' = <[os_alloc p (arena_total size) := arena_total size]> (arena_sizes s) ∧
         g_total_bytes s' = wrap (g_total_bytes s + arena_total size))) s.
Proof.
  intros Hp. unfold request_space. fold (arena_total size).
  destruct (os_alloc p (arena_total size) =? 0) eqn:Hmem.
  { apply wp_ret. by left. }
  apply Z.eqb_neq in Hmem.
  assert (Hpos : 0 < os_alloc p (arena_total size)).
  { destruct Hp as [_ Hg]. by destruct (Hg _ Hmem) as (_ & ? & _). }
  clear Hp.
  set (mem := os_alloc p (arena_total size)) in *. clearbody mem.
  destruct (g_arenas s =? 0) eqn:Hga.
  all: repeat frame_step; right; unfold arena_sizes; hsimpl.
  all: split; [done|].
  all: split; [rewrite arena_header_size_eq in *; lia|].
  all: split; [done|]; split; [|done].
  all: apply map_eq; intros i.
  all: repeat match goal with
              | H : _ !! _ = Some _ |- _ => rewrite !lookup_insert in H
              end.
  all: rewrite lookup_fmap, !lookup_insert, lookup_fmap.
  all: repeat case_decide; simplify_eq; simpl; try done.
  all: by match goal with H : arenas _ !! _ = Some _ |- _ => rewrite H end.
Qed.


(** A call either obtains no arena, or registers exactly one. *)
Definition grows (p : provider) (s s' : heap) : Prop :=
  same_arenas s s' ∨
  ∃ size,
    os_alloc p (arena_total size) ≠ 0 ∧
    arena_sizes s' = <[os_alloc p (arena_total size) := arena_total size]> (arena_sizes s) ∧
    g_total_bytes s' = wrap (g_total_bytes s + arena_total size).

Lemma same_arenas_refl s : same_arenas s s.
Proof. by split. Qed.

Lemma grows_same p s s1 s' : grows p s s1 → same_arenas s1 s' → grows p s s'.
Proof.
  intros [[H1 H2]|(size & Hm & Hs & Ht)] [H3 H4].
  - left. split; congruence.
  - right. exists size. unfold arena_sizes in *. rewrite H3, H4. done.
Qed.

Lemma j_malloc_grows fuel p size s :
  provider_ok s p → wp (j_malloc fuel p size) (λ _ s', grows p s s') s.
Proof.
  intros Hp. unfold j_malloc.
  destruct (size =? 0); [apply wp_ret; by left|].
  apply wp_bind, wp_find_first_fit. intros blk _ _.
  destruct (blk =? 0).
  - apply wp_bind. eapply wp_mono; [|by apply request_space_ledger].
    intros r s1 [[-> ->]|(_ & Hr & Hm & Hs & Ht)]; simpl.
    + apply wp_ret. by left.
    + apply Z.eqb_neq in Hr. rewrite Hr. apply wp_ptr_add. intros _.
      right. eauto.
  - unfold split_block. repeat frame_step; left; by split.
Qed.

Lemma j_realloc_grows fuel p ptr new_size s :
  provider_ok s p → wp (j_realloc fuel p ptr new_size) (λ _ s', grows p s s') s.
Proof.
  intros Hp. unfold j_realloc.
  destruct (ptr =? 0); [by apply j_malloc_grows|].
  destruct (new_size =? 0).
  { apply wp_bind. eapply wp_mono; [|apply j_free_same_arenas].
    intros [] s1 Hs. apply wp_ret. by left. }
  apply wp_bind, wp_ptr_add. intros _.
  apply wp_bind, wp_load. intros h _.
  destruct (_ <=? blk_size h).
  { unfold split_block. repeat frame_step; left; by split. }
  apply wp_bind.
  apply (wp_mono _ (λ _ s', s' = s)).
  2:{ destruct (blk_next h =? 0); [by apply wp_ret|].
      apply wp_bind, wp_load. intros hn Hhn. by apply wp_ret. }
  intros mergeable ? ->. destruct mergeable.
  { unfold split_block. repeat frame_step; left; by split. }
  apply wp_bind. eapply wp_mono; [|by apply j_malloc_grows].
  intros new_ptr s1 Hg. simpl.
  destruct (new_ptr =? 0); [by apply wp_ret|].
  apply wp_bind, wp_memcpy. intros _.
  apply wp_bind. eapply wp_mono; [|apply j_free_same_arenas].
  intros [] s2 Hs. apply wp_ret.
  eapply grows_same; [exact Hg|]. destruct Hs as [H1 H2]. by split.
Qed.

Lemma exec_grows fuel p c s r s' :
  provider_ok s p → exec fuel p c s = Some (r, s') → grows p s s'.
Proof.
  intros Hp He. destruct c as [size|ptr|ptr new_size|addr b]; simpl in He.
  - exact (wp_elim _ _ _ _ _ (j_malloc_grows fuel p size s Hp) He).
  - apply bind_Some in He as ([] & s1 & Hf & [= _ <-]).
    left. exact (wp_elim _ _ _ _ _ (j_free_same_arenas ptr s) Hf).
  - exact (wp_elim _ _ _ _ _ (j_realloc_grows fuel p ptr new_size s Hp) He).
  - injection He as _ <-. left. by split.
Qed.

Lemma size_sum_nonneg (m : gmap Z Z) :
  (∀ a sz, m !! a = Some sz → 0 ≤ sz) → 0 ≤ size_sum m.
Proof.
  intros Hm. unfold size_sum.
  assert (Hall : Forall (λ x, 0 ≤ x.2) (map_to_list m)).
  { apply Forall_forall. intros [a sz] Hx%elem_of_map_to_list. simpl. eauto. }
  induction Hall as [|x l Hx _ IH]; [done|].
  rewrite fmap_cons. change (zsum (x.2 :: l.*2)) with (x.2 + zsum (l.*2)). lia.
Qed.

(** Growth keeps the ledger and never lowers the total. *)
Lemma ledger_grows p s s' :
  ledger s → provider_ok s p → grows p s s' →
  ledger s' ∧ g_total_bytes s ≤ g_total_bytes s'.
Proof.
  intros [Hr Hd Ht] Hp [[Ha Hg]|(size & Hm & Hs & Hg)].
  { split; [|lia]. constructor; unfold arena_sizes in *; rewrite ?Ha, ?Hg; assumption. }
  set (tot := arena_total size) in *.
  assert (Htr : 0 ≤ tot < 2 ^ 64) by apply wrap_range.
  unfold os_alloc in *. set (mem := mmap p (os_need p tot)) in *.
  pose proof Hp as [_ Hgr]. destruct (Hgr _ Hm) as (Hlen & Hpos & Hend & _ & Hfresh).
  fold mem in Hlen, Hpos, Hend, Hfresh.
  assert (Hne : os_need p tot ≠ 0) by lia.
  pose proof (os_need_ge s p tot Hp Htr Hne) as Hge.
  assert (Htpos : 0 < tot).
  { destruct (decide (tot = 0)) as [Hz|]; [|lia].
    rewrite Hz, (os_need_0 s p Hp) in Hne. done. }
  assert (Hnew : arena_sizes s !! mem = None).
  { destruct (arena_sizes s !! mem) as [sz|] eqn:E; [|done].
    destruct (Hr _ _ E) as (_ & ? & _).
    unfold arena_sizes in E. rewrite lookup_fmap in E.
    destruct (arenas s !! mem) as [h|] eqn:Eh; [|done]. injection E as <-.
    destruct (Hfresh _ _ Eh); lia. }
  assert (Hr' : ∀ a sz, arena_sizes s' !! a = Some sz → 0 < a ∧ 0 < sz ∧ a + sz ≤ 2 ^ 64).
  { intros a sz. rewrite Hs, lookup_insert. case_decide.
    - intros [= <-]. subst a. lia.
    - apply Hr. }
  assert (Hfr : ∀ a sz, arena_sizes s !! a = Some sz → mem + tot ≤ a ∨ a + sz ≤ mem).
  { intros a sz E. unfold arena_sizes in E. rewrite lookup_fmap in E.
    destruct (arenas s !! a) as [h|] eqn:Eh; [|done]. injection E as <-.
    destruct (Hfresh _ _ Eh); lia. }
  assert (Hd' : ∀ a1 sz1 a2 sz2, a1 ≠ a2 →
            arena_sizes s' !! a1 = Some sz1 → arena_sizes s' !! a2 = Some sz2 →
            a1 + sz1 ≤ a2 ∨ a2 + sz2 ≤ a1).
  { intros a1 sz1 a2 sz2 Hne12. rewrite Hs, !lookup_insert.
    repeat case_decide; simplify_eq.
    - intros [= <-] E2. destruct (Hfr _ _ E2); lia.
    - intros E1 [= <-]. destruct (Hfr _ _ E1); lia.
    - by apply Hd. }
  pose proof (size_sum_bound _ Hr' Hd') as Hb.
  rewrite Hs, size_sum_insert in Hb by done.
  assert (0 ≤ size_sum (arena_sizes s)).
  { apply size_sum_nonneg. intros a sz E. destruct (Hr _ _ E). lia. }
  rewrite Hg, Ht, wrap_small by lia.
  split; [|lia].
  constructor; [assumption | assumption |].
  rewrite Hg, Ht, wrap_small by lia. rewrite Hs, size_sum_insert by done. lia.
Qed.

Lemma reachable_ledger s : reachable s → ledger s.
Proof.
  induction 1 as [|s fuel p c r s' _ IH Hp _ He]; [apply ledger_init|].
  by destruct (ledger_grows p s s' IH Hp (exec_grows _ _ _ _ _ _ Hp He)).
Qed.

(** ** C9: the introspection queries *)

(** [s'] is reached from [s] by a sequence of calls that complete, each
    served by a provider that honours its contract. *)
Inductive run_from (s : heap) : heap → Prop :=
  | run_here : run_from s s
  | run_step s1 fuel p c r s2 :
      run_from s s1 → provider_ok s1 p → call_ok c →
      exec fuel p c s1 = Some (r, s2) → run_from s s2.

Lemma run_from_reachable s s' : reachable s → run_from s s' → reachable s'.
Proof.
  intros Hs. induction 1 as [|s1 fuel p c r s2 _ IH Hp Hc He]; [done|].
  by eapply reachable_step.
Qed.

(** C9.  [j_heap_bytes] returns [g_total_bytes] and leaves the state as it
    is; [j_free_bytes], whenever it returns, leaves the state as it is;
    and along any sequence of calls from a reachable state the value of
    [j_heap_bytes] never decreases. *)
Theorem queries_pure_total_monotone :
  (∀ s, j_heap_bytes s = Some (g_total_bytes s, s)) ∧
  (∀ fuel s r s', j_free_bytes fuel s = Some (r, s') → s' = s) ∧
  (∀ s s', reachable s → run_from s s' →
           ∃ t t', j_heap_bytes s = Some (t, s) ∧ j_heap_bytes s' = Some (t', s') ∧ t ≤ t').
Proof.
  split; [done|]. split.
  - intros fuel s r s'. unfold j_free_bytes.
    destruct (free_bytes_from _ _ _ _); [|done]. by intros [= _ <-].
  - intros s s' Hs Hrun. exists (g_total_bytes s), (g_total_bytes s').
    split; [done|]. split; [done|].
    induction Hrun as [|s1 fuel p c r s2 Hrun IH Hp Hc He]; [lia|].
    pose proof (reachable_ledger _ (run_from_reachable _ _ Hs Hrun)) as Hl.
    destruct (ledger_grows p s1 s2 Hl Hp (exec_grows _ _ _ _ _ _ Hp He)). lia.
Qed.

(** After [j_malloc(1024)] and then [j_malloc(2 MiB)] served from a second
    arena. *)
Definition heap_two : heap :=
  state_of (j_malloc 2 (provider_at 4096 4210688) 2097152 heap_one).

Lemma provider_at_ok_one : provider_ok heap_one (provider_at 4096 4210688).
Proof.
  constructor.
  - exists 12. split; [lia | reflexivity].
  - intros len. simpl.
    destruct ((0 <? len) && (len <=? 2 ^ 40)) eqn:E; [|done].
    apply andb_true_iff in E as [E1 E2]. intros _.
    split_and!; try lia; try reflexivity.
    intros a h Ha.
    assert (Hm : arenas heap_one = {[2105344 := ArenaHeader 1048608 0 0 2105376]})
      by (by vm_compute).
    rewrite Hm in Ha. apply lookup_singleton_Some in Ha as [<- <-]. simpl. lia.
Qed.

Lemma heap_one_run_two : run_from heap_one heap_two.
Proof.
  apply (run_step heap_one heap_one 2 (provider_at 4096 4210688)
                  (Allocate 2097152) 4210752 heap_two).
  - apply run_here.
  - apply provider_at_ok_one.
  - simpl. lia.
  - by vm_compute.
Qed.

Lemma queries_pure_total_monotone_witness :
  ∃ t t', j_heap_bytes heap_one = Some (t, heap_one) ∧
          j_heap_bytes heap_two = Some (t', heap_two) ∧ t ≤ t'.
Proof.
  exact (proj2 (proj2 queries_pure_total_monotone) heap_one heap_two
               heap_one_reachable heap_one_run_two).
Defined.

(** ** C10: shrinking in place can leave two adjacent free blocks *)

(** No two blocks that follow each other in the chain [l] are both free. *)
Definition no_adjacent_free (l : list (Z * block_header)) : Prop :=
  ∀ i x y, l !! i = Some x → l !! S i = Some y →
           ¬ (blk_free x.2 = true ∧ blk_free y.2 = true).

(** [heap_one] after [j_realloc(2105408, 64)]: the block of 1024 bytes is
    cut down to 64 bytes and the 928 bytes behind its new header become a
    free block, in front of the free rest of the arena. *)
Definition heap_shrunk : heap :=
  state_of (j_realloc 0 provider_none 2105408 64 heap_one).

Definition heap_shrunk_chain : list (Z * block_header) :=
  [(2105376, BlockHeader 64 false 2105472 0);
   (2105472, BlockHeader 928 true 2106432 2105376);
   (2106432, BlockHeader 1047488 true 0 2105472)].

Lemma heap_shrunk_reachable : reachable heap_shrunk.
Proof.
  apply (reachable_step heap_one 0 provider_none (Resize 2105408 64) 2105408 heap_shrunk).
  - apply heap_one_reachable.
  - apply provider_none_ok.
  - simpl. lia.
  - by vm_compute.
Qed.

(** C10.  "No two chain-adjacent free blocks" is not an invariant: from
    the reachable state [heap_one], [j_realloc(2105408, 64)] shrinks the
    block in place, returns the same address and splits; in the reachable
    state that results, the chain is the used block, the new free
    remainder, and the free rest of the arena, so the remainder and its
    chain successor are both marked free. *)
Theorem shrink_leaves_adjacent_free_blocks :
  reachable heap_one ∧
  j_realloc 0 provider_none 2105408 64 heap_one = Some (2105408, heap_shrunk) ∧
  reachable heap_shrunk ∧
  is_chain (blocks heap_shrunk) (g_head heap_shrunk) heap_shrunk_chain ∧
  ¬ no_adjacent_free heap_shrunk_chain.
Proof.
  split; [apply heap_one_reachable|].
  split; [by vm_compute|].
  split; [apply heap_shrunk_reachable|].
  split; [apply (chain_from_sound 3); by vm_compute|].
  intros H. by apply (H 1%nat (2105472, BlockHeader 928 true 2106432 2105376)
                        (2106432, BlockHeader 1047488 true 0 2105472)).
Qed.

(** ** C4: what the first allocation adds to the total *)

(** At the first allocation of 16 bytes with 4096-byte pages the total is
    1 MiB plus the 32 bytes of the arena header: neither one growth unit
    rounded up to pages (1 MiB) nor a multiple of the page size, and the
    length [os_alloc] passes to [mmap] is the page-rounded 1 MiB + 32, not
    the page-rounded larger of block need and 1 MiB. *)
Lemma first_allocation_total_counterexample :
  j_heap_bytes (state_of (j_malloc 0 demo_provider 16 heap_init))
    = Some (1048608, state_of (j_malloc 0 demo_provider 16 heap_init)) ∧
  fst <$> j_heap_bytes (state_of (j_malloc 0 demo_provider 16 heap_init))
    ≠ Some (os_need demo_provider ARENA_MIN_SIZE) ∧
  os_need demo_provider ARENA_MIN_SIZE = 1048576 ∧
  1048608 mod os_pagesize demo_provider = 32 ∧
  os_need demo_provider (arena_total 16) = 1052672 ∧
  os_need demo_provider (Z.max (header_size + 16) ARENA_MIN_SIZE) = 1048576.
Proof. by vm_compute. Qed.

Lemma arena_total_small size :
  0 ≤ size → header_size + size ≤ ARENA_MIN_SIZE →
  arena_total size = arena_header_size + ARENA_MIN_SIZE.
Proof.
  rewrite header_size_eq, ARENA_MIN_SIZE_eq. intros H0 H1. unfold arena_total.
  rewrite header_size_eq, arena_header_size_eq, ARENA_MIN_SIZE_eq.
  rewrite (wrap_small (32 + size)) by lia.
  destruct (1048576 <? 32 + size) eqn:E; [apply Z.ltb_lt in E; lia|].
  by rewrite wrap_small.
Qed.

Lemma arena_total_large size :
  0 ≤ size → ARENA_MIN_SIZE < header_size + size →
  arena_header_size + header_size + size < 2 ^ 64 →
  arena_total size = arena_header_size + header_size + size.
Proof.
  rewrite header_size_eq, arena_header_size_eq, ARENA_MIN_SIZE_eq. intros H0 H1 H2.
  unfold arena_total.
  rewrite header_size_eq, arena_header_size_eq, ARENA_MIN_SIZE_eq.
  rewrite (wrap_small (32 + size)) by lia.
  destruct (1048576 <? 32 + size) eqn:E; [|apply Z.ltb_ge in E; lia].
  rewrite wrap_small by lia. lia.
Qed.

(** C4, as the code has it.  Whenever [request_space] obtains an arena it
    passes to [mmap] the page-rounded [os_need] of [arena_total]: the arena
    header plus the larger of block header + payload and 1 MiB; it places
    the first block right behind the arena header and adds [arena_total]
    itself, not the page-rounded length, to the total.  So after the first
    successful allocation of [size] bytes from the empty allocator, with
    block header + rounded size within 1 MiB, the total is 1 MiB plus the
    arena header (1048608 bytes). *)
Theorem first_allocation_total :
  (∀ p size s r s',
     provider_ok s p → request_space p size s = Some (r, s') → r ≠ 0 →
     r = mmap p (os_need p (arena_total size)) + arena_header_size ∧
     g_total_bytes s' = wrap (g_total_bytes s + arena_total size)) ∧
  (∀ size,
     (0 ≤ size → header_size + size ≤ ARENA_MIN_SIZE →
      arena_total size = arena_header_size + ARENA_MIN_SIZE) ∧
     (0 ≤ size → ARENA_MIN_SIZE < header_size + size →
      arena_header_size + header_size + size < 2 ^ 64 →
      arena_total size = arena_header_size + header_size + size)) ∧
  (∀ fuel p size r s',
     provider_ok heap_init p →
     1 ≤ size → header_size + ALIGN_UP size ALIGNMENT ≤ ARENA_MIN_SIZE →
     j_malloc fuel p size heap_init = Some (r, s') → r ≠ 0 →
     j_heap_bytes s' = Some (1048608, s') ∧
     r = mmap p (os_need p 1048608) + arena_header_size + header_size).
Proof.
  split; [|split].
  - intros p size s r s' Hp He Hr.
    destruct (wp_elim _ _ _ _ _ (request_space_ledger p size s Hp) He)
      as [[? _]|(Hr' & _ & _ & _ & Ht)]; [done|].
    by split.
  - intros size. split; [apply arena_total_small | apply arena_total_large].
  - intros fuel p size r s' Hp Hsz Hfit He Hr.
    unfold j_malloc in He.
    destruct (size =? 0) eqn:E; [apply Z.eqb_eq in E; lia|].
    apply bind_Some in He as (blk & s1 & Hff & He).
    unfold find_first_fit in Hff. simpl in Hff.
    assert (Hf0 : first_fit_from fuel ∅ 0 (ALIGN_UP size ALIGNMENT) = Some 0)
      by (by destruct fuel).
    rewrite Hf0 in Hff. injection Hff as <- <-. simpl in He.
    apply bind_Some in He as (blk & s1 & Hrs & He).
    destruct (wp_elim _ _ _ _ _ (request_space_ledger p _ heap_init Hp) Hrs)
      as [[-> ->]|(Hblk & Hnz & _ & _ & Ht)].
    { simpl in He. by injection He as <- _. }
    apply Z.eqb_neq in Hnz. rewrite Hnz in He.
    apply ptr_add_Some in He as (_ & -> & ->).
    pose proof (ALIGN_UP_8_range size) as [Hlo _].
    rewrite (arena_total_small _ Hlo Hfit) in Ht, Hblk.
    simpl in Ht. unfold j_heap_bytes, get. rewrite Ht. split; [done|].
    rewrite Hblk. done.
Qed.

Lemma first_allocation_total_witness :
  j_heap_bytes (state_of (j_malloc 0 demo_provider 16 heap_init))
    = Some (1048608, state_of (j_malloc 0 demo_provider 16 heap_init)) ∧
  2105408 = mmap demo_provider (os_need demo_provider 1048608)
            + arena_header_size + header_size.
Proof.
  apply (proj2 (proj2 first_allocation_total) 0%nat demo_provider 16 2105408).
  - apply provider_at_ok_init.
  - lia.
  - by vm_compute.
  - by vm_compute.
  - lia.
Defined.

(** ** C3: what [j_realloc] does to the payload at [SIZE_MAX] *)

(** [heap_one] after the caller stored the byte 0x41 at the start of its
    payload. *)
Definition heap_poked : heap :=
  state_of (exec 0 provider_none (Poke 2105408 Byte.x41) heap_one).

Lemma heap_poked_reachable : reachable heap_poked.
Proof.
  apply (reachable_step heap_one 0 provider_none (Poke 2105408 Byte.x41) 0 heap_poked).
  - apply heap_one_reachable.
  - apply provider_none_ok.
  - simpl. lia.
  - by vm_compute.
Qed.

(** C3, at its failing input.  On the live block of 1024 bytes whose first
    payload byte is 0x41, [j_realloc(p, SIZE_MAX)] rounds the size up to 0,
    takes the shrink-in-place path, returns [p] and splits at size 0: the
    header of the free remainder is stored at [p] itself, over the first
    32 payload bytes, and the block keeps a payload of 0 bytes.  The first
    payload byte is no longer the caller's. *)
Theorem resize_size_max_overwrites_payload :
  reachable heap_poked ∧
  blocks heap_poked !! (2105408 - header_size) = Some (BlockHeader 1024 false 2106432 0) ∧
  data heap_poked !! 2105408 = Some Byte.x41 ∧
  ALIGN_UP (2 ^ 64 - 1) ALIGNMENT = 0 ∧
  ∃ s', j_realloc 0 provider_none 2105408 (2 ^ 64 - 1) heap_poked = Some (2105408, s') ∧
        data s' !! 2105408 = None ∧
        blocks s' !! 2105408 = Some (BlockHeader 992 true 2106432 2105376) ∧
        blocks s' !! (2105408 - header_size) = Some (BlockHeader 0 false 2105408 0).
Proof.
  split; [apply heap_poked_reachable|].
  split; [by vm_compute|]. split; [by vm_compute|]. split; [by vm_compute|].
  exists (state_of (j_realloc 0 provider_none 2105408 (2 ^ 64 - 1) heap_poked)).
  split; [by vm_compute|]. split; [by vm_compute|]. split; by vm_compute.
Qed.

(** ** C5: the in-place paths of [j_realloc] return the pointer they got *)

Ltac twf_call :=
  hsimpl;
  lazymatch goal with
  | Hwf : wf ?s |- twp (split_block ?b ?r) _ ?s =>
      eapply twp_mono;
      [| apply (split_block_total b r s Hwf);
         [solve_stored | lia | assumption | rewrite ?header_size_eq in *; lia]];
      intros [] ? [? ?]
  | _ => twf_step
  end.

(** C5.  In a well-formed state, let [ptr] be the payload address of a
    stored block and the requested size be non-zero.  If the block's
    payload size is at least the rounded size, or its chain successor is
    free and payload size + header size + successor's payload size (in
    [size_t] arithmetic, as the code computes it) is at least the rounded
    size, then whatever [j_realloc] returns is [ptr]; and it does return
    when the resized payload ends inside the address space. *)
Theorem resize_in_place_keeps_address fuel p s ptr new_size h :
  wf s → new_size ≠ 0 →
  blocks s !! (ptr - header_size) = Some h →
  (ALIGN_UP new_size ALIGNMENT ≤ blk_size h ∨
   ∃ hn, blk_next h ≠ 0 ∧ blocks s !! blk_next h = Some hn ∧ blk_free hn = true ∧
         ALIGN_UP new_size ALIGNMENT ≤ wrap (blk_size h + header_size + blk_size hn)) →
  (∀ r s', j_realloc fuel p ptr new_size s = Some (r, s') → r = ptr) ∧
  (ptr + ALIGN_UP new_size ALIGNMENT < 2 ^ 64 →
   ∃ s', j_realloc fuel p ptr new_size s = Some (ptr, s')).
Proof.
  intros Hwf Hnz Hh Hcond.
  rewrite <- Z.add_opp_r in Hh.
  pose proof (wf_load _ _ _ Hwf Hh) as [Ha Ha8 Hs Hs8 Hn Hp].
  pose proof (link_ok_lookup _ _ _ Hh) as Hl.
  pose proof (ALIGN_UP_8_range new_size) as Hr.
  pose proof (ALIGN_UP_8_mod new_size) as Hm.
  remember (ALIGN_UP new_size ALIGNMENT) as ns eqn:Hns.
  assert (Hptr : (ptr =? 0) = false)
    by (apply Z.eqb_neq; rewrite header_size_eq in *; lia).
  apply Z.eqb_neq in Hnz.
  assert (Hmerge : (ns <=? blk_size h) = false →
    (if blk_next h =? 0 then ret false
     else do hn <- load (blk_next h);
          ret (blk_free hn && (ns <=? wrap (blk_size h + header_size + blk_size hn)))) s
    = Some (true, s)).
  { intros Hfit. apply Z.leb_gt in Hfit.
    destruct Hcond as [?|(hn & Hnn & Hhn & Hf & Hge)]; [lia|].
    apply Z.eqb_neq in Hnn. rewrite Hnn.
    unfold bind, load, ret. rewrite Hhn, Hf. simpl.
    apply Z.leb_le in Hge. by rewrite Hge. }
  split.
  - intros r s' He.
    assert (Hgoal : wp (j_realloc fuel p ptr new_size) (λ r _, r = ptr) s).
    2:{ exact (wp_elim _ _ _ _ _ Hgoal He). }
    clear He. unfold j_realloc. rewrite Hptr, Hnz, <- Hns.
    apply wp_bind, wp_ptr_add. intros _.
    apply wp_bind, wp_load. intros h' Hh'. assert (h' = h) as -> by congruence.
    destruct (ns <=? blk_size h) eqn:Hfit.
    { apply wp_bind. eapply wp_mono; [|apply wp_intro; intros; exact I].
      intros _ s1 _. by apply wp_ret. }
    apply wp_bind, wp_intro. intros b s1 Hb.
    rewrite (Hmerge eq_refl) in Hb. injection Hb as <- <-.
    repeat (apply wp_bind; eapply wp_mono; [|apply wp_intro; intros; exact I];
            intros ? ? _; hsimpl).
    apply wp_ptr_add. intros _. rewrite header_size_eq. lia.
  - intros Hend.
    assert (Hgoal : twp (j_realloc fuel p ptr new_size) (λ r _, r = ptr) s).
    2:{ destruct (twp_elim _ _ _ Hgoal) as (r & s' & He & ->). eauto. }
    unfold j_realloc. rewrite Hptr, Hnz, <- Hns.
    apply twp_bind, twp_ptr_add; [lia|].
    apply twp_bind, twp_load; [eauto|]. intros h' Hh'. assert (h' = h) as -> by congruence.
    destruct (ns <=? blk_size h) eqn:Hfit.
    { repeat twf_call; done. }
    apply twp_bind. eapply twp_intro; [exact (Hmerge eq_refl)|].
    destruct Hcond as [?|(hn & Hnn & Hhn & Hf & Hge)]; [apply Z.leb_gt in Hfit; lia|].
    repeat twf_call; rewrite header_size_eq; lia.
Qed.

Lemma resize_in_place_keeps_address_witness :
  (∀ r s', j_realloc 0 provider_none 2105408 2048 heap_one = Some (r, s') → r = 2105408) ∧
  ∃ s', j_realloc 0 provider_none 2105408 2048 heap_one = Some (2105408, s').
Proof.
  destruct (resize_in_place_keeps_address 0 provider_none heap_one 2105408 2048
              (BlockHeader 1024 false 2106432 0)) as [H1 H2].
  - apply reachable_wf, heap_one_reachable.
  - lia.
  - by vm_compute.
  - right. exists (BlockHeader 1047488 true 0 2105376).
    split; [simpl; lia|]. split; [by vm_compute|]. split; [done|]. by vm_compute.
  - split; [exact H1|]. apply H2. by vm_compute.
Defined.
(** ** C8: coalescing follows the chain links *)

(** The header stored at [a] (a dummy where there is none). *)
Definition hdr (s : heap) (a : Z) : block_header :=
  default (BlockHeader 0 false 0 0) (blocks s !! a).



Lemma hdr_lookup s a hx : blocks s !! a = Some hx → hdr s a = hx.
Proof. unfold hdr. by intros ->. Qed.

(** Symbolic execution that resolves every header read against the
    stores made so far, using the facts at hand about which addresses
    differ. *)
Ltac resolve_lookup H :=
  hsimpl;
  repeat first
    [ rewrite lookup_insert_eq in H
    | rewrite lookup_insert_ne in H by (first [done | congruence | lia]) ];
  first
    [ injection H as <-
    | lazymatch type of H with
      | blocks ?s !! ?a = Some ?hx =>
          first
            [ match goal with
              | H' : blocks s !! a = Some _ |- _ => rewrite H' in H; injection H as <-
              end
            | apply hdr_lookup in H; subst hx ]
      end ].

Ltac cs_step :=
  hsimpl;
  lazymatch goal with
  | |- wp (bind _ _) _ _ => apply wp_bind
  | |- wp (ret _) _ _ => apply wp_ret
  | |- wp (get _) _ _ => apply wp_get
  | |- wp (put _) _ _ => apply wp_put
  | |- wp (store _ _) _ _ => apply wp_store
  | |- wp (load _) _ _ =>
      let hx := fresh "hx" in let Hx := fresh "Hx" in
      apply wp_load; intros hx Hx; resolve_lookup Hx
  | |- wp (set_size _ _) _ _ => unfold set_size
  | |- wp (set_next _ _) _ _ => unfold set_next
  | |- wp (set_prev _ _) _ _ => unfold set_prev
  | |- wp (when _ _) _ _ => unfold when
  | |- wp (if ?c then _ else _) _ _ =>
      first
        [ match goal with H : c = _ |- _ => rewrite H end
        | let E := fresh "E" in destruct c eqn:E ]
  end.









(** * Further properties of the allocator *)

(** ** Rounding *)

(** X1.  [ALIGN_UP(x, 8)] on a [size_t] value that leaves room for the
    rounding is the least multiple of 8 that is at least [x], and it leaves
    multiples of 8 alone; from [SIZE_MAX - 6] on the addition wraps and the
    result is 0. *)
Theorem ALIGN_UP_rounds :
  (∀ x, 0 ≤ x → x + 7 < 2 ^ 64 →
        ALIGN_UP x ALIGNMENT mod 8 = 0 ∧ x ≤ ALIGN_UP x ALIGNMENT < x + 8 ∧
        (∀ y, x ≤ y → y mod 8 = 0 → ALIGN_UP x ALIGNMENT ≤ y)) ∧
  (∀ x, 0 ≤ x < 2 ^ 64 → x mod 8 = 0 → ALIGN_UP x ALIGNMENT = x) ∧
  (∀ x, 2 ^ 64 - 7 ≤ x < 2 ^ 64 → ALIGN_UP x ALIGNMENT = 0).
Proof.
  split; [|split].
  - intros x H0 H1. pose proof (ALIGN_UP_8_ge x H0 H1). pose proof (ALIGN_UP_8_mod x) as Hm.
    split; [done|]. split; [done|].
    intros y Hxy Hy.
    apply Z.mod_divide in Hm; [|lia]. apply Z.mod_divide in Hy; [|lia].
    destruct Hm as [a Ha]. destruct Hy as [b Hb]. lia.
  - apply ALIGN_UP_8_fix.
  - intros x Hx. rewrite ALIGN_UP_8.
    assert (wrap (x + 7) = x + 7 - 2 ^ 64) as ->.
    { unfold wrap. symmetry. apply (Z.mod_unique _ _ 1); lia. }
    rewrite Z.div_small by lia. lia.
Qed.

Lemma ALIGN_UP_rounds_witness :
  ALIGN_UP 13 ALIGNMENT mod 8 = 0 ∧ 13 ≤ ALIGN_UP 13 ALIGNMENT < 13 + 8 ∧
  (∀ y, 13 ≤ y → y mod 8 = 0 → ALIGN_UP 13 ALIGNMENT ≤ y).
Proof. apply (proj1 ALIGN_UP_rounds 13); lia. Defined.

(** X2.  With a page size that is a power of two, the length [os_alloc]
    passes to [mmap] is the least multiple of the page size that is at
    least the request, as long as the rounding does not overflow; when it
    overflows, the length is 0. *)
Theorem os_need_rounds p k n :
  0 ≤ k < 64 → os_pagesize p = 2 ^ k → 0 ≤ n < 2 ^ 64 →
  (n + 2 ^ k - 1 < 2 ^ 64 →
   os_need p n mod 2 ^ k = 0 ∧ n ≤ os_need p n < n + 2 ^ k) ∧
  (2 ^ 64 ≤ n + 2 ^ k - 1 → os_need p n = 0).
Proof.
  intros Hk Hps Hn. unfold os_need. rewrite Hps.
  rewrite land_mask_pow2; [| lia | apply wrap_range].
  assert (Hpos : 0 < 2 ^ k) by (apply Z.pow_pos_nonneg; lia).
  assert (Hlt : 2 ^ k < 2 ^ 64) by (apply Z.pow_lt_mono_r; lia).
  split.
  - intros Hs. rewrite wrap_small by lia. split.
    + rewrite Z.mul_comm. apply Z.mod_mul. lia.
    + pose proof (Z.div_mod (n + 2 ^ k - 1) (2 ^ k)).
      pose proof (Z.mod_pos_bound (n + 2 ^ k - 1) (2 ^ k)). lia.
  - intros Hl.
    assert (wrap (n + 2 ^ k - 1) = n + 2 ^ k - 1 - 2 ^ 64) as ->.
    { unfold wrap. symmetry. apply (Z.mod_unique _ _ 1); lia. }
    rewrite Z.div_small by lia. lia.
Qed.

Lemma os_need_rounds_witness :
  (1048608 + 2 ^ 12 - 1 < 2 ^ 64 →
   os_need demo_provider 1048608 mod 2 ^ 12 = 0 ∧
   1048608 ≤ os_need demo_provider 1048608 < 1048608 + 2 ^ 12) ∧
  (2 ^ 64 ≤ 1048608 + 2 ^ 12 - 1 → os_need demo_provider 1048608 = 0).
Proof. apply (os_need_rounds demo_provider 12 1048608); [lia | reflexivity | lia]. Defined.

(** ** Invariants of reachable states *)






(** ** First fit *)

(** A block satisfies a request of [size] bytes. *)
Definition fits (size : Z) (b : Z * block_header) : Prop :=
  blk_free b.2 = true ∧ size ≤ blk_size b.2.

Lemma first_fit_from_chain bs cur l size :
  is_chain bs cur l → ∀ fuel, (length l ≤ fuel)%nat →
  ∃ r, first_fit_from fuel bs cur size = Some r ∧
       ((r = 0 ∧ Forall (λ b, ¬ fits size b) l) ∨
        (∃ l1 h l2, l = l1 ++ (r, h) :: l2 ∧ r ≠ 0 ∧
                    Forall (λ b, ¬ fits size b) l1 ∧ fits size (r, h))).
Proof.
  induction 1 as [|cur h l Hnz Hh _ IH]; intros fuel Hf.
  - exists 0. split; [by destruct fuel|]. left. by split.
  - destruct fuel as [|fuel]; [simpl in Hf; lia|]. simpl.
    apply Z.eqb_neq in Hnz. rewrite Hnz, Hh. apply Z.eqb_neq in Hnz.
    destruct (blk_free h && (size <=? blk_size h)) eqn:E.
    + exists cur. split; [done|]. right. exists [], h, l.
      apply andb_true_iff in E as [E1 E2]. apply Z.leb_le in E2.
      split; [done|]. split; [done|]. split; [constructor|]. by split.
    + destruct (IH fuel ltac:(simpl in Hf; lia)) as (r & Hr & Hcase).
      exists r. split; [done|].
      assert (Hno : ¬ fits size (cur, h)).
      { intros [F1 F2]. simpl in *. rewrite F1 in E. simpl in E.
        apply Z.leb_gt in E. lia. }
      destruct Hcase as [[-> Hall]|(l1 & h' & l2 & -> & Hrz & Hall & Hfit)].
      * left. split; [done|]. by constructor.
      * right. exists ((cur, h) :: l1), h', l2.
        split; [done|]. split; [done|]. split; [by constructor | done].
Qed.

(** X5.  When the chain from [g_head] ends at NULL, [find_first_fit]
    returns without changing the state, and what it returns is the first
    block of the chain that is free and whose payload size is at least
    the request: every block in front of it is used or too small; it
    returns NULL exactly when no block of the chain fits. *)
Theorem find_first_fit_is_first s l size :
  is_chain (blocks s) (g_head s) l →
  ∃ r, find_first_fit (length l) size s = Some (r, s) ∧
       ((r = 0 ∧ Forall (λ b, ¬ fits size b) l) ∨
        (∃ l1 h l2, l = l1 ++ (r, h) :: l2 ∧ r ≠ 0 ∧
                    Forall (λ b, ¬ fits size b) l1 ∧ fits size (r, h))).
Proof.
  intros Hl.
  destruct (first_fit_from_chain _ _ _ size Hl (length l) ltac:(done)) as (r & Hr & Hcase).
  exists r. split; [|done]. unfold find_first_fit. by rewrite Hr.
Qed.

Lemma find_first_fit_is_first_witness :
  ∃ r, find_first_fit (length heap_shrunk_chain) 1000 heap_shrunk = Some (r, heap_shrunk) ∧
       ((r = 0 ∧ Forall (λ b, ¬ fits 1000 b) heap_shrunk_chain) ∨
        (∃ l1 h l2, heap_shrunk_chain = l1 ++ (r, h) :: l2 ∧ r ≠ 0 ∧
                    Forall (λ b, ¬ fits 1000 b) l1 ∧ fits 1000 (r, h))).
Proof.
  apply find_first_fit_is_first.
  apply (chain_from_sound 3). by vm_compute.
Defined.

(** ** Allocation *)

(** X6.  In a well-formed state an allocation that returns NULL has changed
    nothing, and it returns NULL only for a request of 0 bytes or when no
    free block fits the rounded size and the provider refuses a new
    arena. *)
Theorem allocation_failure_is_pure fuel p size s s' :
  wf s → provider_ok s p →
  j_malloc fuel p size s = Some (0, s') →
  s' = s ∧ (size = 0 ∨ allocation_fails fuel p (ALIGN_UP size ALIGNMENT) s).
Proof.
  intros Hwf Hp He.
  destruct (decide (size = 0)) as [->|Hnz].
  - unfold j_malloc in He. simpl in He. injection He as <-. split; [done | by left].
  - destruct (wp_elim _ _ _ _ _ (j_malloc_null fuel p size s Hwf Hp Hnz) He eq_refl).
    split; [done | by right].
Qed.

Lemma allocation_failure_is_pure_witness :
  j_malloc 2 provider_none 2097152 heap_one = Some (0, heap_one) ∧
  (2097152 = 0 ∨ allocation_fails 2 provider_none (ALIGN_UP 2097152 ALIGNMENT) heap_one).
Proof.
  assert (He : j_malloc 2 provider_none 2097152 heap_one = Some (0, heap_one))
    by (by vm_compute).
  split; [exact He|].
  refine (proj2 (allocation_failure_is_pure 2 provider_none 2097152 heap_one heap_one
                   _ _ He)).
  - apply reachable_wf, heap_one_reachable.
  - apply provider_none_ok.
Defined.

(** X7.  When the chain from [g_head] ends at NULL and holds a free block
    whose payload size is at least the rounded request, an allocation of
    at least one byte that completes is served from the chain: it returns
    the payload address of the first such block and obtains no arena, so
    the arena registry and [g_total_bytes] stay as they are. *)
Theorem allocation_reuses_free_block p size s l r s' :
  is_chain (blocks s) (g_head s) l → size ≠ 0 →
  Exists (fits (ALIGN_UP size ALIGNMENT)) l →
  j_malloc (length l) p size s = Some (r, s') →
  same_arenas s s' ∧
  ∃ l1 h l2, l = l1 ++ (r - header_size, h) :: l2 ∧
             Forall (λ b, ¬ fits (ALIGN_UP size ALIGNMENT) b) l1 ∧
             fits (ALIGN_UP size ALIGNMENT) (r - header_size, h).
Proof.
  intros Hl Hnz Hex He.
  destruct (first_fit_from_chain _ _ _ (ALIGN_UP size ALIGNMENT) Hl (length l) ltac:(done))
    as (blk & Hff0 & Hcase).
  assert (Hff : find_first_fit (length l) (ALIGN_UP size ALIGNMENT) s = Some (blk, s))
    by (unfold find_first_fit; by rewrite Hff0).
  destruct Hcase as [[-> Hall]|(l1 & h & l2 & -> & Hbz & Hall & Hfit)].
  { exfalso. apply Exists_exists in Hex as (b & Hb & Hfb).
    rewrite Forall_forall in Hall. by apply (Hall b). }
  unfold j_malloc in He. apply Z.eqb_neq in Hnz. rewrite Hnz in He.
  apply bind_Some in He as (blk' & s1 & Hff' & He).
  rewrite Hff in Hff'. injection Hff' as <- <-.
  apply Z.eqb_neq in Hbz. rewrite Hbz in He.
  assert (Hgoal : wp
    (do h <- load blk;
     when (wrap (ALIGN_UP size ALIGNMENT + header_size + ALIGNMENT) <=? blk_size h)
          (split_block blk (ALIGN_UP size ALIGNMENT));;
     set_free blk false;;
     do fb <- get g_free_bytes;
     put (with_g_free_bytes (wrap (fb - blk_size h)));;
     ptr_add blk header_size)
    (λ r s', same_arenas s s' ∧ r = blk + header_size) s).
  { unfold split_block. repeat frame_step; by split. }
  destruct (wp_elim _ _ _ _ _ Hgoal He) as [Hsame ->].
  split; [done|].
  exists l1, h, l2. replace (blk + header_size - header_size) with blk by lia. done.
Qed.

Lemma allocation_reuses_free_block_witness :
  same_arenas heap_shrunk (state_of (j_malloc 3 provider_none 900 heap_shrunk)) ∧
  ∃ l1 h l2, heap_shrunk_chain = l1 ++ (2105504 - header_size, h) :: l2 ∧
             Forall (λ b, ¬ fits (ALIGN_UP 900 ALIGNMENT) b) l1 ∧
             fits (ALIGN_UP 900 ALIGNMENT) (2105504 - header_size, h).
Proof.
  apply (allocation_reuses_free_block provider_none 900 heap_shrunk heap_shrunk_chain).
  - apply (chain_from_sound 3). by vm_compute.
  - lia.
  - apply Exists_cons_tl, Exists_cons_hd. split; [done|]. by vm_compute.
  - by vm_compute.
Defined.

(** The header stored at [a] has payload size [sz] and free flag [fl]. *)
Definition field_at (a sz : Z) (fl : bool) (s : heap) : Prop :=
  ∃ h, blocks s !! a = Some h ∧ blk_size h = sz ∧ blk_free h = fl.

Lemma wp_store_field a sz fl a' h' (Q : unit → heap → Prop) s :
  field_at a sz fl s → (a' = a → blk_size h' = sz ∧ blk_free h' = fl) →
  (∀ s1, field_at a sz fl s1 → Q tt s1) → wp (store a' h') Q s.
Proof.
  intros (h & Hh & Hs & Hf) Hok HQ. apply wp_store, HQ.
  unfold field_at. simpl. rewrite lookup_insert. case_decide as E.
  - destruct (Hok E). eauto.
  - eauto.
Qed.

Lemma field_at_load a sz fl s a' h :
  field_at a sz fl s → blocks s !! a' = Some h →
  a' = a → blk_size h = sz ∧ blk_free h = fl.
Proof. intros (h0 & Hh0 & Hs & Hf) Hh ->. by simplify_eq. Qed.

Lemma field_at_frame a sz fl s s' : blocks s' = blocks s → field_at a sz fl s → field_at a sz fl s'.
Proof. unfold field_at. by intros ->. Qed.

(** Symbolic execution that keeps [field_at]: stores to other addresses
    and updates of the links leave it alone. *)
Ltac fa_step :=
  hsimpl;
  lazymatch goal with
  | |- wp (bind _ _) _ _ => apply wp_bind
  | |- wp (ret _) _ _ => apply wp_ret
  | |- wp (get _) _ _ => apply wp_get
  | |- wp (ptr_add _ _) _ _ => apply wp_ptr_add; intros ?
  | |- wp (load_arena _) _ _ => apply wp_load_arena; intros ? _
  | Hfa : field_at ?a ?sz ?fl ?s |- wp (load ?a') _ ?s =>
      let h := fresh "h" in let Hh := fresh "Hh" in
      apply wp_load; intros h Hh;
      pose proof (field_at_load a sz fl s a' h Hfa Hh); clear Hh
  | Hfa : field_at ?a ?sz ?fl ?s |- wp (store ?a' ?h') _ ?s =>
      apply (wp_store_field a sz fl a' h' _ s Hfa);
      [ hsimpl; first [ assumption | intros; exfalso; rewrite ?header_size_eq in *; lia ]
      | clear Hfa; intros ? Hfa ]
  | Hfa : field_at ?a ?sz ?fl ?s |- wp (store_arena ?a' ?h') _ ?s =>
      apply wp_store_arena;
      apply (field_at_frame a sz fl s
               (with_data (clobber a' arena_header_size) (with_arenas <[a':=h']> s))
               eq_refl) in Hfa
  | |- wp (set_size _ _) _ _ => unfold set_size
  | |- wp (set_free _ _) _ _ => unfold set_free
  | |- wp (set_next _ _) _ _ => unfold set_next
  | |- wp (set_prev _ _) _ _ => unfold set_prev
  | Hfa : field_at ?a ?sz ?fl ?s |- wp (put ?f) _ ?s =>
      apply wp_put; apply (field_at_frame a sz fl s (f s) eq_refl) in Hfa
  | |- wp (when _ _) _ _ => apply wp_when; intros ?
  | |- wp (if ?c then _ else _) _ _ => destruct c eqn:?
  end.

(** After [split_block(blk, req)] the block has payload size [req] and the
    free flag it had. *)
Lemma split_block_field blk req s h :
  blocks s !! blk = Some h → 0 ≤ req →
  wp (split_block blk req) (λ _ s', field_at blk req (blk_free h) s') s.
Proof.
  intros Hh Hreq. unfold split_block.
  apply wp_bind, wp_load. intros h0 Hh0. assert (h0 = h) as -> by congruence.
  apply wp_bind. unfold set_size. apply wp_bind, wp_load. intros h1 Hh1.
  assert (h1 = h) as -> by congruence. apply wp_store.
  match goal with |- wp _ _ ?s1 => assert (Hfa : field_at blk req (blk_free h) s1) end.
  { eexists. simpl. rewrite lookup_insert_eq. done. }
  repeat fa_step; assumption.
Qed.







(** Symbolic execution that keeps no fact about the headers read. *)
Ltac plain_step :=
  hsimpl;
  lazymatch goal with
  | |- wp (bind _ _) _ _ => apply wp_bind
  | |- wp (ret _) _ _ => apply wp_ret
  | |- wp (get _) _ _ => apply wp_get
  | |- wp (put _) _ _ => apply wp_put
  | |- wp (ptr_add _ _) _ _ => apply wp_ptr_add; intros _
  | |- wp (load_arena _) _ _ => apply wp_load_arena; intros ? _
  | |- wp (store_arena _ _) _ _ => apply wp_store_arena
  | |- wp (load _) _ _ => apply wp_load; intros ? _
  | |- wp (store _ _) _ _ => apply wp_store
  | |- wp (set_size _ _) _ _ => unfold set_size
  | |- wp (set_free _ _) _ _ => unfold set_free
  | |- wp (set_next _ _) _ _ => unfold set_next
  | |- wp (set_prev _ _) _ _ => unfold set_prev
  | |- wp (when _ _) _ _ => apply wp_when; intros _
  | |- wp (if ?c then _ else _) _ _ => destruct c
  end.

Lemma request_space_address p size s :
  wp (request_space p size)
     (λ r _, r = 0 ∨ r = os_alloc p (arena_total size) + arena_header_size) s.
Proof.
  unfold request_space. fold (arena_total size).
  destruct (os_alloc p (arena_total size) =? 0); [apply wp_ret; by left|].
  repeat plain_step; by right.
Qed.

Ltac cs_step2 :=
  hsimpl;
  lazymatch goal with
  | |- wp (ptr_add _ _) _ _ => apply wp_ptr_add; intros ?
  | |- wp (load_arena _) _ _ => apply wp_load_arena; intros ? _
  | |- wp (store_arena _ _) _ _ => apply wp_store_arena
  | |- wp (set_free _ _) _ _ => unfold set_free
  | |- _ => cs_step
  end.

(** X10.  The layout [request_space(size)] gives a new arena whose first
    block address held no header before: the used block of exactly [size]
    bytes sits right behind the arena header and is appended to the chain;
    when at least one header and 8 bytes are left, the rest of the arena
    becomes one free block that ends the chain, and arena header, the two
    block headers and the two payloads add up to the recorded arena size;
    otherwise the slack (fewer than 40 bytes) is left unused and the tally
    of free bytes does not change. *)
Theorem request_space_layout p size s r s' :
  wf s → 0 ≤ size →
  arena_header_size + header_size + size + header_size + ALIGNMENT < 2 ^ 64 →
  request_space p size s = Some (r, s') → r ≠ 0 → blocks s !! r = None →
  r = os_alloc p (arena_total size) + arena_header_size ∧
  g_head s' = (if g_head s =? 0 then r else g_head s) ∧
  if arena_header_size + header_size + size + header_size + ALIGNMENT
       <=? arena_total size
  then ∃ hf, blocks s' !! r
               = Some (BlockHeader size false (r + header_size + size) (g_tail s)) ∧
             blocks s' !! (r + header_size + size) = Some hf ∧
             blk_free hf = true ∧ blk_next hf = 0 ∧ blk_prev hf = r ∧
             arena_header_size + header_size + size + header_size + blk_size hf
               = arena_total size ∧
             g_tail s' = r + header_size + size ∧
             g_free_bytes s' = wrap (g_free_bytes s + blk_size hf)
  else blocks s' !! r = Some (BlockHeader size false 0 (g_tail s)) ∧
       g_tail s' = r ∧ g_free_bytes s' = g_free_bytes s.
Proof.
  intros Hwf Hsz Hno He Hr Hfresh.
  destruct (wp_elim _ _ _ _ _ (request_space_address p size s) He) as [?|Hr']; [done|].
  pose proof (wrap_range (arena_header_size +
     (if ARENA_MIN_SIZE <? wrap (header_size + size)
      then wrap (header_size + size) else ARENA_MIN_SIZE))) as Htot.
  fold (arena_total size) in Htot.
  revert He. unfold request_space. fold (arena_total size).
  set (total := arena_total size) in *. clearbody total.
  set (mem := os_alloc p total) in *. clearbody mem.
  rewrite header_size_eq, arena_header_size_eq in *. unfold ALIGNMENT in *.
  rewrite (wrap_small (32 + 32 + size)) by lia.
  destruct (mem =? 0) eqn:Hmem.
  { intros [= <- <-]. done. }
  intros He.
  subst r.
  assert (Hgt : g_tail s ≠ mem + 32).
  { intros Hg. pose proof (wf_tail s Hwf) as Ht.
    rewrite Hg in Ht. destruct Ht as [?|[h Hh]]; [lia | congruence]. }
  assert (Hgoal : wp
    (do ga <- get g_arenas;
     store_arena mem (ArenaHeader total ga 0 0);;
     (if ga =? 0 then ret tt
      else do hga <- load_arena ga;
           store_arena ga (ArenaHeader (ar_size hga) (ar_next hga) mem (ar_first_block hga)));;
     put (with_g_arenas mem);;
     do blk <- ptr_add mem 32;
     do gt <- get g_tail;
     store blk (BlockHeader size false 0 gt);;
     do gh <- get g_head;
     when (gh =? 0) (put (with_g_head blk));;
     do gt' <- get g_tail;
     when (negb (gt' =? 0)) (set_next gt' blk);;
     put (with_g_tail blk);;
     do ha <- load_arena mem;
     store_arena mem (ArenaHeader (ar_size ha) (ar_next ha) (ar_prev ha) blk);;
     do tb <- get g_total_bytes;
     put (with_g_total_bytes (wrap (tb + total)));;
     when (wrap (32 + 32 + size + 32 + 8) <=? total) (
       do f <- ptr_add blk (32 + size);
       do hb <- load blk;
       store f (BlockHeader (wrap (wrap (total - (32 + 32 + size)) - 32)) true (blk_next hb) blk);;
       do hf <- load f;
       (if blk_next hf =? 0 then put (with_g_tail f) else set_prev (blk_next hf) f);;
       set_next blk f;;
       do hf' <- load f;
       do fb <- get g_free_bytes;
       put (with_g_free_bytes (wrap (fb + blk_size hf'))));;
     ret blk)
    (λ r s', r = mem + 32 ∧ (
       g_head s' = (if g_head s =? 0 then r else g_head s) ∧
       if 32 + 32 + size + 32 + 8 <=? total
       then ∃ hf, blocks s' !! r = Some (BlockHeader size false (r + 32 + size) (g_tail s)) ∧
                  blocks s' !! (r + 32 + size) = Some hf ∧
                  blk_free hf = true ∧ blk_next hf = 0 ∧ blk_prev hf = r ∧
                  32 + 32 + size + 32 + blk_size hf = total ∧
                  g_tail s' = r + 32 + size ∧
                  g_free_bytes s' = wrap (g_free_bytes s + blk_size hf)
       else blocks s' !! r = Some (BlockHeader size false 0 (g_tail s)) ∧
            g_tail s' = r ∧ g_free_bytes s' = g_free_bytes s)) s).
  { rewrite (wrap_small (32 + 32 + size + 32 + 8)) by lia.
    destruct (32 + 32 + size + 32 + 8 <=? total) eqn:Hslack.
    - apply Z.leb_le in Hslack.
      rewrite (wrap_small (total - (32 + 32 + size))) by lia.
      rewrite (wrap_small (total - (32 + 32 + size) - 32)) by lia.
      repeat cs_step2.
      all: try match goal with H : (0 =? 0) = false |- _ => discriminate H end.
      all: split; [done|]; hsimpl.
      all: replace (mem + 32 + (32 + size)) with (mem + 32 + 32 + size) in * by lia.
      all: rewrite ?lookup_insert_eq.
      all: rewrite ?(lookup_insert_ne _ (mem + 32) (mem + 32 + 32 + size)) by lia.
      all: rewrite ?lookup_insert_eq.
      all: split; [done|]; eexists; repeat split; simpl; try done; lia.
    - repeat cs_step2.
      all: split; [done|]; hsimpl.
      all: rewrite ?lookup_insert_eq.
      all: try rewrite lookup_insert_ne by done.
      all: rewrite ?lookup_insert_eq.
      all: try done. }
  destruct (wp_elim _ _ _ _ _ Hgoal He) as [_ Hq].
  split; [done|]. exact Hq.
Qed.

Lemma request_space_layout_witness :
  2105376 = os_alloc demo_provider (arena_total 1024) + arena_header_size ∧
  g_head (state_of (request_space demo_provider 1024 heap_init)) = 2105376 ∧
  ∃ hf, blocks (state_of (request_space demo_provider 1024 heap_init)) !! 2105376
          = Some (BlockHeader 1024 false 2106432 0) ∧
        blocks (state_of (request_space demo_provider 1024 heap_init)) !! 2106432
          = Some hf ∧
        blk_free hf = true ∧ blk_next hf = 0 ∧ blk_prev hf = 2105376 ∧
        arena_header_size + header_size + 1024 + header_size + blk_size hf
          = arena_total 1024 ∧
        g_tail (state_of (request_space demo_provider 1024 heap_init)) = 2106432 ∧
        g_free_bytes (state_of (request_space demo_provider 1024 heap_init))
          = wrap (g_free_bytes heap_init + blk_size hf).
Proof.
  exact (request_space_layout demo_provider 1024 heap_init 2105376
           (state_of (request_space demo_provider 1024 heap_init))
           wf_heap_init ltac:(lia) ltac:(by vm_compute) ltac:(by vm_compute)
           ltac:(lia) ltac:(by vm_compute)).
Defined.

Lemma twp_store a h (Q : unit → heap → Prop) s :
  Q tt (with_data (clobber a header_size) (with_blocks <[a:=h]> s)) → twp (store a h) Q s.
Proof. auto. Qed.

Lemma twp_load_eq a h (Q : block_header → heap → Prop) s :
  blocks s !! a = Some h → Q h s → twp (load a) Q s.
Proof. unfold twp, load. by intros ->. Qed.

Lemma twp_elim_unit (m : M unit) (Q : heap → Prop) s :
  twp m (λ _ s', Q s') s → ∃ s', m s = Some (tt, s') ∧ Q s'.
Proof. unfold twp. destruct (m s) as [[[] s']|]; [eauto | done]. Qed.

Ltac lookup_solve :=
  hsimpl;
  repeat first [ rewrite lookup_insert_eq | rewrite lookup_insert_ne by lia ];
  first [ reflexivity | eassumption ].

(** Symbolic execution for total correctness over a state whose headers
    are known: every read is answered from the stores made so far. *)
Ltac tcs_step :=
  hsimpl; cbn [negb andb];
  lazymatch goal with
  | |- twp (bind _ _) _ _ => apply twp_bind
  | |- twp (ret _) _ _ => apply twp_ret
  | |- twp (get _) _ _ => apply twp_get
  | |- twp (put _) _ _ => apply twp_put
  | |- twp (store _ _) _ _ => apply twp_store
  | |- twp (load _) _ _ => eapply twp_load_eq; [lookup_solve|]
  | |- twp (set_size _ _) _ _ => unfold set_size
  | |- twp (set_free _ _) _ _ => unfold set_free
  | |- twp (set_next _ _) _ _ => unfold set_next
  | |- twp (set_prev _ _) _ _ => unfold set_prev
  | |- twp (coalesce _) _ _ => unfold coalesce
  | |- twp (when _ _) _ _ => unfold when
  | |- twp (if ?c then _ else _) _ _ =>
      match goal with H : c = _ |- _ => rewrite H end
  end.

(** X11.  Round trip on the empty allocator: when the first [j_malloc]
    succeeds, releasing its result completes and leaves a chain of exactly
    one free block, which is both head and tail, starts right behind the
    arena header and, when a trailing free block had been carved, spans the
    whole arena behind the two leading headers (otherwise it keeps the
    rounded request size); the tally of free bytes is that block's size and
    the heap total is the size recorded for the arena. *)
Theorem first_allocation_round_trip fuel p size r s1 :
  0 < size → size ≤ 2 ^ 64 - 120 →
  j_malloc fuel p size heap_init = Some (r, s1) → r ≠ 0 →
  ∃ s2, j_free r s1 = Some (tt, s2) ∧
        blocks s2 !! (r - header_size) =
          Some (BlockHeader
                  (if arena_header_size + header_size + ALIGN_UP size ALIGNMENT
                        + header_size + ALIGNMENT <=? arena_total (ALIGN_UP size ALIGNMENT)
                   then arena_total (ALIGN_UP size ALIGNMENT)
                          - arena_header_size - header_size
                   else ALIGN_UP size ALIGNMENT)
                  true 0 0) ∧
        g_head s2 = r - header_size ∧ g_tail s2 = r - header_size ∧
        g_free_bytes s2 =
          (if arena_header_size + header_size + ALIGN_UP size ALIGNMENT
                + header_size + ALIGNMENT <=? arena_total (ALIGN_UP size ALIGNMENT)
           then arena_total (ALIGN_UP size ALIGNMENT) - arena_header_size - header_size
           else ALIGN_UP size ALIGNMENT) ∧
        g_total_bytes s2 = arena_total (ALIGN_UP size ALIGNMENT).
Proof.
  intros Hpos Hmax He Hr.
  pose proof (ALIGN_UP_8_ge size ltac:(lia) ltac:(lia)) as Hge.
  revert He.
  unfold j_malloc. destruct (size =? 0) eqn:Hz; [apply Z.eqb_eq in Hz; lia|].
  set (ns := ALIGN_UP size ALIGNMENT) in *. clearbody ns.
  pose proof (wrap_range (arena_header_size +
     (if ARENA_MIN_SIZE <? wrap (header_size + ns)
      then wrap (header_size + ns) else ARENA_MIN_SIZE))) as Htot.
  fold (arena_total ns) in Htot.
  unfold request_space. fold (arena_total ns).
  set (total := arena_total ns) in *. clearbody total.
  set (mem := os_alloc p total). clearbody mem.
  rewrite header_size_eq, arena_header_size_eq in *. unfold ALIGNMENT in *.
  rewrite (wrap_small (32 + 32 + ns)) by lia.
  rewrite (wrap_small (32 + 32 + ns + 32 + 8)) by lia.
  intros He.
  refine (wp_elim _ (λ r s1, r ≠ 0 → ∃ s2, j_free r s1 = Some (tt, s2) ∧
            blocks s2 !! (r - 32) =
              Some (BlockHeader (if 32 + 32 + ns + 32 + 8 <=? total
                                 then total - 32 - 32 else ns) true 0 0) ∧
            g_head s2 = r - 32 ∧ g_tail s2 = r - 32 ∧
            g_free_bytes s2 = (if 32 + 32 + ns + 32 + 8 <=? total
                               then total - 32 - 32 else ns) ∧
            g_total_bytes s2 = total) _ _ _ _ He Hr).
  clear He Hr r s1.
  assert (Hff : first_fit_from fuel ∅ 0 ns = Some 0) by (by destruct fuel).
  pose proof (Z.eqb_refl 0) as E00.
  assert (E0n : negb (0 =? 0) = false) by done.
  apply wp_bind. unfold wp at 1, find_first_fit, heap_init. hsimpl. rewrite Hff.
  fold heap_init. rewrite E00. hsimpl.
  apply wp_bind.
  destruct (mem =? 0) eqn:Hmem.
  { apply wp_ret. rewrite E00. by apply wp_ret. }
  unfold heap_init.
  destruct (32 + 32 + ns + 32 + 8 <=? total) eqn:Hslack.
  - apply Z.leb_le in Hslack.
    rewrite (wrap_small (total - (32 + 32 + ns))) by lia.
    rewrite (wrap_small (total - (32 + 32 + ns) - 32)) by lia.
    repeat cs_step2.
    { done. }
    intros _. apply twp_elim_unit.
    assert (Ep : (mem + 32 + 32 =? 0) = false) by (apply Z.eqb_neq; lia).
    assert (Ef : (mem + 32 + (32 + ns) =? 0) = false) by (apply Z.eqb_neq; lia).
    unfold j_free. rewrite Ep, header_size_eq.
    apply twp_bind, twp_ptr_add; [lia|].
    replace (mem + 32 + 32 + Z.opp 32) with (mem + 32) by lia.
    replace (mem + 32 + 32 - 32) with (mem + 32) by lia.
    repeat tcs_step.
    hsimpl. rewrite lookup_insert_eq, ?header_size_eq.
    repeat match goal with
           | |- context [wrap ?x] => rewrite (wrap_small x) by lia
           end.
    split_and!; try done; f_equal; f_equal; lia.
  - apply Z.leb_gt in Hslack.
    repeat cs_step2.
    { done. }
    intros _. apply twp_elim_unit.
    assert (Ep : (mem + 32 + 32 =? 0) = false) by (apply Z.eqb_neq; lia).
    unfold j_free. rewrite Ep, header_size_eq.
    apply twp_bind, twp_ptr_add; [lia|].
    replace (mem + 32 + 32 + Z.opp 32) with (mem + 32) by lia.
    replace (mem + 32 + 32 - 32) with (mem + 32) by lia.
    repeat tcs_step.
    hsimpl. rewrite lookup_insert_eq, ?header_size_eq.
    repeat match goal with
           | |- context [wrap ?x] => rewrite (wrap_small x) by lia
           end.
    split_and!; try done.
Qed.

Lemma first_allocation_round_trip_witness :
  ∃ s2, j_free 2105408 heap_one = Some (tt, s2) ∧
        blocks s2 !! (2105408 - header_size) = Some (BlockHeader 1048544 true 0 0) ∧
        g_head s2 = 2105408 - header_size ∧ g_tail s2 = 2105408 - header_size ∧
        g_free_bytes s2 = 1048544 ∧
        g_total_bytes s2 = arena_total (ALIGN_UP 1024 ALIGNMENT).
Proof.
  exact (first_allocation_round_trip 1 demo_provider 1024 2105408 heap_one
           ltac:(lia) ltac:(lia) ltac:(by vm_compute) ltac:(lia)).
Defined.

(** An optional [split_block] leaves the block with a payload of at least
    the requested size and with the flag it had. *)
Lemma split_block_when_field (c : bool) blk ns sz fl s :
  field_at blk sz fl s → 0 ≤ ns ≤ sz →
  wp (when c (split_block blk ns)) (λ _ s', ∃ sz', ns ≤ sz' ∧ field_at blk sz' fl s') s.
Proof.
  intros (h & Hh & Hs & Hf) Hns. apply wp_when; intros _.
  - eapply wp_mono; [|apply (split_block_field blk ns s h Hh); lia].
    intros ? s1 Hfa. exists ns. rewrite Hf in Hfa. split; [lia | done].
  - exists sz. split; [lia|]. by exists h.
Qed.

(** X12.  Under the conditions in which [j_realloc] resizes in place (the
    block is large enough, or its free chain successor makes it so), the
    block in front of the returned address ends up with a payload of at
    least the rounded request and keeps its free flag. *)
Theorem resize_in_place_capacity fuel p s ptr new_size h r s' :
  new_size ≠ 0 → ptr ≠ 0 →
  blocks s !! (ptr + - header_size) = Some h →
  (ALIGN_UP new_size ALIGNMENT ≤ blk_size h ∨
   ∃ hn, blk_next h ≠ 0 ∧ blocks s !! blk_next h = Some hn ∧ blk_free hn = true ∧
         ALIGN_UP new_size ALIGNMENT ≤ wrap (blk_size h + header_size + blk_size hn)) →
  j_realloc fuel p ptr new_size s = Some (r, s') →
  r = ptr ∧
  ∃ h', blocks s' !! (ptr + - header_size) = Some h' ∧
        ALIGN_UP new_size ALIGNMENT ≤ blk_size h' ∧ blk_free h' = blk_free h.
Proof.
  intros Hnz Hptr Hh Hcond He.
  pose proof (ALIGN_UP_8_range new_size) as Hr.
  assert (Hgoal : wp (j_realloc fuel p ptr new_size)
    (λ r s', r = ptr ∧ ∃ sz, ALIGN_UP new_size ALIGNMENT ≤ sz ∧
                            field_at (ptr + - header_size) sz (blk_free h) s') s).
  { unfold j_realloc.
    apply Z.eqb_neq in Hnz, Hptr. rewrite Hnz, Hptr.
    set (ns := ALIGN_UP new_size ALIGNMENT) in *. clearbody ns.
    apply wp_bind, wp_ptr_add. intros Hblk.
    set (blk := ptr + - header_size) in *.
    assert (Hback : blk + header_size = ptr) by (subst blk; lia).
    clearbody blk.
    apply wp_bind, wp_load. intros h0 Hh0. assert (h0 = h) as -> by congruence.
    destruct (ns <=? blk_size h) eqn:Hfit.
    { apply Z.leb_le in Hfit. apply wp_bind.
      eapply wp_mono; [|apply (split_block_when_field _ blk ns (blk_size h) (blk_free h));
                         [by exists h | lia]].
      intros ? s1 Hq. by apply wp_ret. }
    apply Z.leb_gt in Hfit.
    destruct Hcond as [?|(hn & Hnn & Hhn & Hf & Hge)]; [lia|].
    apply Z.eqb_neq in Hnn. rewrite Hnn.
    apply wp_bind, wp_bind, wp_load. intros hn0 Hhn0.
    assert (hn0 = hn) as -> by congruence.
    apply wp_ret. rewrite Hf. apply Z.leb_le in Hge. rewrite Hge. simpl.
    apply wp_bind, wp_load. intros hn1 Hhn1. assert (hn1 = hn) as -> by congruence.
    apply wp_bind. unfold set_size. apply wp_bind, wp_load. intros h1 Hh1.
    assert (h1 = h) as -> by congruence. apply wp_store.
    apply Z.leb_le in Hge.
    match goal with
    | |- wp _ _ ?s1 =>
        assert (Hfa : field_at blk (wrap (blk_size h + header_size + blk_size hn))
                               (blk_free h) s1)
    end.
    { eexists. simpl. rewrite lookup_insert_eq. done. }
    set (sz := wrap (blk_size h + header_size + blk_size hn)) in *.
    clearbody sz.
    repeat fa_step.
    all: try (split; [done|]; exists sz; by split).
    all: destruct Hfa as (hx & Hx & Hsx & Hfx).
    all: eapply wp_mono; [|apply (split_block_field blk ns _ hx Hx); lia].
    all: intros ? s2 Hfa2; apply wp_ptr_add; intros _.
    all: split; [done|]; exists ns; rewrite Hfx in Hfa2; split; [lia | done]. }
  destruct (wp_elim _ _ _ _ _ Hgoal He) as (-> & sz & Hge & h' & Hh' & Hs & Hf').
  split; [done|]. exists h'. split; [done|]. split; [lia | done].
Qed.

Lemma resize_in_place_capacity_witness :
  2105408 = 2105408 ∧
  ∃ h', blocks (state_of (j_realloc 0 provider_none 2105408 2048 heap_one))
          !! (2105408 + - header_size) = Some h' ∧
        ALIGN_UP 2048 ALIGNMENT ≤ blk_size h' ∧ blk_free h' = false.
Proof.
  apply (resize_in_place_capacity 0 provider_none heap_one 2105408 2048
           (BlockHeader 1024 false 2106432 0)).
  - lia.
  - lia.
  - by vm_compute.
  - right. exists (BlockHeader 1047488 true 0 2105376).
    split; [simpl; lia|]. split; [by vm_compute|]. split; [done|]. by vm_compute.
  - by vm_compute.
Defined.

(** * The benchmark's payload patterns

    [fill_pattern] and [check_pattern] of the benchmark, over a byte
    memory: a finite map from addresses to byte values; reading an
    address that was never written is undefined. *)
(** [memset(p, b, n)] *)
Definition memset (p b n : Z) (m : gmap Z Z) : gmap Z Z :=
  foldr (λ i m', <[p + i := b]> m') m (seqZ 0 n).

(** [fill_pattern(p, sz, stamp)] *)
Definition fill_pattern (p sz stamp : Z) (m : gmap Z Z) : gmap Z Z :=
  let b := Z.land stamp 255 in
  let m1 := memset p b sz m in
  let m2 := if 1 <=? sz then <[p := 171]> m1 else m1 in
  if 2 <=? sz then <[p + (sz - 1) := 205]> m2 else m2.

(** The loop of [check_pattern] over the indices [idx]. *)
Fixpoint check_loop (m : gmap Z Z) (p b : Z) (idx : list Z) : option bool :=
  match idx with
  | [] => Some true
  | i :: idx' =>
      match m !! (p + i) with
      | None => None
      | Some v => if v =? b then check_loop m p b idx' else Some false
      end
  end.

(** [check_pattern(p, sz, stamp)]: 1 as [true], 0 as [false]. *)
Definition check_pattern (p sz stamp : Z) (m : gmap Z Z) : option bool :=
  if p =? 0 then Some false
  else
    match (if 1 <=? sz then m !! p else Some 171) with
    | None => None
    | Some v0 =>
        if negb (v0 =? 171) then Some false
        else
          match (if 2 <=? sz then m !! (p + (sz - 1)) else Some 205) with
          | None => None
          | Some v1 =>
              if negb (v1 =? 205) then Some false
              else check_loop m p (Z.land stamp 255) (seqZ 1 (sz - 2))
          end
    end.

Lemma memset_lookup p b n m a :
  memset p b n m !! a = if decide (p ≤ a < p + n) then Some b else m !! a.
Proof.
  unfold memset.
  assert (H : ∀ l, foldr (λ i m', <[p + i := b]> m') m l !! a
                   = if decide (a - p ∈ l) then Some b else m !! a).
  { induction l as [|i l IH]; cbn [foldr].
    - by rewrite decide_False by set_solver.
    - destruct (decide (p + i = a)) as [<-|Hne].
      + rewrite lookup_insert_eq. rewrite decide_True; [done|].
        replace (p + i - p) with i by lia. set_solver.
      + rewrite lookup_insert_ne by done. rewrite IH.
        destruct (decide (a - p ∈ l)) as [Hin|Hin].
        * rewrite decide_True; [done | set_solver].
        * rewrite decide_False; [done|].
          intros [?|?]%elem_of_cons; [lia | done]. }
  rewrite H.
  destruct (decide (p ≤ a < p + n)) as [Hr|Hr].
  - rewrite decide_True; [done|]. apply elem_of_seqZ. lia.
  - rewrite decide_False; [done|]. rewrite elem_of_seqZ. lia.
Qed.

Lemma check_loop_all m p b b' l :
  Forall (λ i, m !! (p + i) = Some b) l →
  check_loop m p b' l = Some (bool_decide (l = [] ∨ b = b')).
Proof.
  induction 1 as [|i l Hi Hl IH]; cbn [check_loop].
  - rewrite bool_decide_eq_true_2; [done | by left].
  - rewrite Hi. destruct (b =? b') eqn:E.
    + apply Z.eqb_eq in E. subst b'. rewrite IH.
      rewrite !bool_decide_eq_true_2; [done | by right | by right].
    + apply Z.eqb_neq in E. rewrite bool_decide_eq_false_2; [done|].
      intros [?|?]; done.
Qed.

(** X13.  After [fill_pattern(p, sz, stamp)] on a non-null address,
    [check_pattern(p, sz, stamp')] reads only written bytes and accepts
    exactly when the buffer has no interior byte ([sz ≤ 2]) or the two
    stamps agree in their low 8 bits; in particular it accepts the stamp
    that was written, and stamps that differ only above bit 7 cannot be
    told apart.  Bytes outside [p, p + sz) are left as they were. *)
Theorem fill_then_check p sz stamp stamp' m :
  p ≠ 0 → 0 ≤ sz →
  check_pattern p sz stamp' (fill_pattern p sz stamp m)
    = Some (bool_decide (sz ≤ 2 ∨ Z.land stamp 255 = Z.land stamp' 255)) ∧
  check_pattern p sz stamp (fill_pattern p sz stamp m) = Some true ∧
  ∀ a, ¬ (p ≤ a < p + sz) → fill_pattern p sz stamp m !! a = m !! a.
Proof.
  intros Hp Hsz.
  assert (Hframe : ∀ a, ¬ (p ≤ a < p + sz) →
                        fill_pattern p sz stamp m !! a = m !! a).
  { intros a Ha. unfold fill_pattern.
    destruct (2 <=? sz) eqn:E2; destruct (1 <=? sz) eqn:E1;
      try apply Z.leb_le in E2; try apply Z.leb_le in E1;
      rewrite ?lookup_insert_ne by lia; rewrite memset_lookup;
      by rewrite decide_False. }
  assert (Hgen : ∀ st, check_pattern p sz st (fill_pattern p sz stamp m)
            = Some (bool_decide (sz ≤ 2 ∨ Z.land stamp 255 = Z.land st 255))).
  { intros st. unfold check_pattern.
    apply Z.eqb_neq in Hp. rewrite Hp.
    set (m' := fill_pattern p sz stamp m).
    assert (H0 : (if 1 <=? sz then m' !! p else Some 171) = Some 171).
    { destruct (1 <=? sz) eqn:E1; [|done]. apply Z.leb_le in E1.
      subst m'. unfold fill_pattern. rewrite (proj2 (Z.leb_le 1 sz) E1).
      destruct (2 <=? sz) eqn:E2.
      - apply Z.leb_le in E2. rewrite lookup_insert_ne by lia.
        by rewrite lookup_insert_eq.
      - by rewrite lookup_insert_eq. }
    rewrite H0. cbn [negb Z.eqb Pos.eqb].
    assert (H1 : (if 2 <=? sz then m' !! (p + (sz - 1)) else Some 205) = Some 205).
    { destruct (2 <=? sz) eqn:E2; [|done].
      subst m'. unfold fill_pattern. rewrite E2. by rewrite lookup_insert_eq. }
    rewrite H1. cbn [negb Z.eqb Pos.eqb].
    rewrite (check_loop_all m' p (Z.land stamp 255)).
    - f_equal. apply bool_decide_ext. split.
      + intros [Hnil|Heq]; [left | by right].
        destruct (decide (sz ≤ 2)) as [|Hbig]; [done|].
        assert (Hin : 1 ∈ seqZ 1 (sz - 2)) by (apply elem_of_seqZ; lia).
        rewrite Hnil in Hin. by apply elem_of_nil in Hin.
      + intros [Hsmall|Heq]; [left | by right].
        apply seqZ_nil. lia.
    - apply Forall_forall. intros i Hi. apply elem_of_seqZ in Hi.
      subst m'. unfold fill_pattern.
      rewrite (proj2 (Z.leb_le 2 sz)) by lia.
      rewrite (proj2 (Z.leb_le 1 sz)) by lia.
      rewrite !lookup_insert_ne by lia.
      rewrite memset_lookup. rewrite decide_True; [done | lia]. }
  split; [apply Hgen|]. split; [|exact Hframe].
  rewrite Hgen. rewrite bool_decide_eq_true_2; [done | by right].
Qed.

Lemma fill_then_check_witness :
  check_pattern 4096 16 (7 + 256) (fill_pattern 4096 16 7 ∅)
    = Some (bool_decide (16 ≤ 2 ∨ Z.land 7 255 = Z.land (7 + 256) 255)) ∧
  check_pattern 4096 16 7 (fill_pattern 4096 16 7 ∅) = Some true ∧
  ∀ a, ¬ (4096 ≤ a < 4096 + 16) →
       fill_pattern 4096 16 7 ∅ !! a = (∅ : gmap Z Z) !! a.
Proof. apply (fill_then_check 4096 16 7 (7 + 256) ∅); lia. Defined.
